(** * X86 shuffle-mask decoding (lib/Target/X86/Utils/X86ShuffleDecode.cpp)

    A shallow embedding of the decoders that turn the immediate or the
    constant operand of an x86 shuffle instruction into a generic vector
    shuffle mask, and the properties of the masks they produce.

    C++ [unsigned] values are integers of [Z] kept in [0, 2^32) with the
    wrap-around written out; the output container
    [SmallVectorImpl<int> &ShuffleMask] is a [list Z] passed in and returned.
    Undefined behaviour (division by zero, an oversized shift), a failed
    [assert] and a loop that has not finished within its fuel are the
    errors of the [result] monad. *)

From Stdlib Require Import ZArith Lia.
From stdpp Require Import base numbers list.

Local Open Scope Z_scope.

(** ** Machine arithmetic *)

(** Reduction of a mathematical integer to a 32-bit [unsigned]. *)
Definition wrap32 (x : Z) : Z := x mod 2 ^ 32.

(** Conversion of an integer value to the 32-bit signed [int] stored in the
    mask (two's complement). *)
Definition to_int (x : Z) : Z :=
  let u := wrap32 x in if u <? 2 ^ 31 then u else u - 2 ^ 32.

(** Reduction to a [uint64_t]. *)
Definition wrap64 (x : Z) : Z := x mod 2 ^ 64.

Definition uadd (a b : Z) : Z := wrap32 (a + b).
Definition usub (a b : Z) : Z := wrap32 (a - b).
Definition umul (a b : Z) : Z := wrap32 (a * b).

(** ** Errors *)

Inductive error : Type :=
  | DivisionByZero
  | ShiftTooWide
  | AssertionFailure
  | OutOfFuel.

Inductive result (A : Type) : Type :=
  | Ok (a : A)
  | Err (e : error).
Arguments Ok {A} a.
Arguments Err {A} e.

#[global] Instance result_ret : MRet result := fun A a => Ok a.
#[global] Instance result_bind : MBind result := fun A B f m =>
  match m with
  | Ok a => f a
  | Err e => Err e
  end.
#[global] Instance result_fmap : FMap result := fun A B f m =>
  match m with
  | Ok a => Ok (f a)
  | Err e => Err e
  end.

(** [a / b] and [a % b] on [unsigned]: undefined when [b] is zero. *)
Definition udiv (a b : Z) : result Z :=
  if b =? 0 then Err DivisionByZero else Ok (a / b).
Definition urem (a b : Z) : result Z :=
  if b =? 0 then Err DivisionByZero else Ok (a mod b).

(** [a >> n] on a 32-bit operand: undefined unless [0 <= n < 32]. *)
Definition ushr (a n : Z) : result Z :=
  if (0 <=? n) && (n <? 32) then Ok (Z.shiftr a n) else Err ShiftTooWide.

(** ** The output container *)

Abbreviation mask := (list Z).

(** Modelled from the spec: the enumerator [SM_SentinelZero] is declared in
    X86ShuffleDecode.h, which is not among the sources; the specification
    describes it as a reserved negative constant outside every index
    range. *)
Definition SM_SentinelZero : Z := -1.

Definition push_back (v : Z) (m : mask) : mask := m ++ [v].

(** [ShuffleMask[idx] = v]: [SmallVector::operator[]] asserts
    [idx < size()]. *)
Definition set_at (idx : Z) (v : Z) (m : mask) : result mask :=
  if (0 <=? idx) && (idx <? Z.of_nat (length m))
  then Ok (<[Z.to_nat idx := v]> m)
  else Err AssertionFailure.

(** ** Loops *)

Section Loops.
Context {St : Type}.

(** [for (unsigned i = a; i != e; i += step) body]. *)
Fixpoint for_ne (fuel : nat) (i e step : Z)
    (body : Z -> St -> result St) (s : St) : result St :=
  if i =? e then Ok s
  else match fuel with
       | O => Err OutOfFuel
       | S fuel' =>
           s' ← body i s; for_ne fuel' (uadd i step) e step body s'
       end.

(** [for (unsigned i = a; i != e; ++i) body]: the loop variable reaches [e]
    after exactly [(e - a) mod 2^32] increments. *)
Definition for_range (a e : Z) (body : Z -> St -> result St) (s : St)
    : result St :=
  for_ne (Z.to_nat (wrap32 (e - a))) a e 1 body s.

(** [for (int i = a; i < e; ++i) body]. *)
Fixpoint for_lt_fuel (fuel : nat) (i e : Z)
    (body : Z -> St -> result St) (s : St) : result St :=
  if i <? e then
    match fuel with
    | O => Err OutOfFuel
    | S fuel' => s' ← body i s; for_lt_fuel fuel' (i + 1) e body s'
    end
  else Ok s.

Definition for_lt (a e : Z) (body : Z -> St -> result St) (s : St)
    : result St :=
  for_lt_fuel (Z.to_nat (e - a)) a e body s.
End Loops.

(** ** Collaborators outside the decoder

    Modelled from the spec: class [MVT] (llvm/CodeGen/MachineValueType.h) is
    not among the sources.  The decoders only query a vector type for its
    element count, the bit width of its element type and its total bit
    width; a vector type is modelled by the first two, the third is their
    product.  All three are [unsigned]. *)
Record MVT : Type := mkMVT {
  getVectorNumElements : Z;
  getVectorElementSizeInBits : Z
}.

Definition getSizeInBits (VT : MVT) : Z :=
  getVectorNumElements VT * getVectorElementSizeInBits VT.

(* 64-bit (MMX) vector types *)
Definition v8i8 : MVT := mkMVT 8 8.
Definition v4i16 : MVT := mkMVT 4 16.
Definition v2i32 : MVT := mkMVT 2 32.
Definition v1i64 : MVT := mkMVT 1 64.
(* 128-bit vector types *)
Definition v16i8 : MVT := mkMVT 16 8.
Definition v8i16 : MVT := mkMVT 8 16.
Definition v4i32 : MVT := mkMVT 4 32.
Definition v2i64 : MVT := mkMVT 2 64.
(* 256-bit vector types *)
Definition v32i8 : MVT := mkMVT 32 8.
Definition v16i16 : MVT := mkMVT 16 16.
Definition v8i32 : MVT := mkMVT 8 32.
Definition v4i64 : MVT := mkMVT 4 64.
(* 512-bit vector types *)
Definition v64i8 : MVT := mkMVT 64 8.
Definition v32i16 : MVT := mkMVT 32 16.
Definition v16i32 : MVT := mkMVT 16 32.
Definition v8i64 : MVT := mkMVT 8 64.

(** Modelled from the spec: class [ConstantDataSequential]
    (llvm/IR/Constants.h) is not among the sources.  A constant exposes
    whether its type is a vector type, the bit width of its integer element
    type, the element count its type declares, and its elements, each read
    back zero-extended to a [uint64_t]. *)
Record ConstantDataSequential : Type := mkCDS {
  isVectorTy : bool;
  getVectorElementBits : Z;
  getTypeNumElements : Z;
  elements : list Z
}.

Definition getNumElements (C : ConstantDataSequential) : Z :=
  Z.of_nat (length (elements C)).

Definition getElementAsInteger (C : ConstantDataSequential) (i : Z) : Z :=
  nth (Z.to_nat i) (elements C) 0.

(** [assert(c)] *)
Definition assert (c : bool) : result unit :=
  if c then Ok tt else Err AssertionFailure.

(** ** The decoders *)

Definition DecodeINSERTPSMask (Imm : Z) (ShuffleMask : mask) : result mask :=
  (* Defaults the copying the dest value. *)
  let ShuffleMask := push_back 0 ShuffleMask in
  let ShuffleMask := push_back 1 ShuffleMask in
  let ShuffleMask := push_back 2 ShuffleMask in
  let ShuffleMask := push_back 3 ShuffleMask in
  (* Decode the immediate. *)
  let ZMask := Z.land Imm 15 in
  let CountD := Z.land (Z.shiftr Imm 4) 3 in
  let CountS := Z.land (Z.shiftr Imm 6) 3 in
  (* CountS selects which input element to use. *)
  let InVal := uadd 4 CountS in
  (* CountD specifies which element of destination to update. *)
  ShuffleMask ← set_at CountD (to_int InVal) ShuffleMask;
  (* ZMask zaps values, potentially overriding the CountD elt. *)
  ShuffleMask ← (if Z.land ZMask 1 =? 0 then Ok ShuffleMask
                 else set_at 0 SM_SentinelZero ShuffleMask);
  ShuffleMask ← (if Z.land ZMask 2 =? 0 then Ok ShuffleMask
                 else set_at 1 SM_SentinelZero ShuffleMask);
  ShuffleMask ← (if Z.land ZMask 4 =? 0 then Ok ShuffleMask
                 else set_at 2 SM_SentinelZero ShuffleMask);
  ShuffleMask ← (if Z.land ZMask 8 =? 0 then Ok ShuffleMask
                 else set_at 3 SM_SentinelZero ShuffleMask);
  Ok ShuffleMask.

(* <3,1> or <6,7,2,3> *)
Definition DecodeMOVHLPSMask (NElts : Z) (ShuffleMask : mask) : result mask :=
  ShuffleMask ← for_range (NElts / 2) NElts (fun i ShuffleMask =>
    Ok (push_back (to_int (uadd NElts i)) ShuffleMask)) ShuffleMask;
  for_range (NElts / 2) NElts (fun i ShuffleMask =>
    Ok (push_back (to_int i) ShuffleMask)) ShuffleMask.

(* <0,2> or <0,1,4,5> *)
Definition DecodeMOVLHPSMask (NElts : Z) (ShuffleMask : mask) : result mask :=
  ShuffleMask ← for_range 0 (NElts / 2) (fun i ShuffleMask =>
    Ok (push_back (to_int i) ShuffleMask)) ShuffleMask;
  for_range 0 (NElts / 2) (fun i ShuffleMask =>
    Ok (push_back (to_int (uadd NElts i)) ShuffleMask)) ShuffleMask.

Definition DecodePALIGNRMask (fuel : nat) (VT : MVT) (Imm : Z)
    (ShuffleMask : mask) : result mask :=
  let NumElts := getVectorNumElements VT in
  let Offset := umul Imm (getVectorElementSizeInBits VT / 8) in
  let NumLanes := getSizeInBits VT / 128 in
  NumLaneElts ← udiv NumElts NumLanes;
  for_ne fuel 0 NumElts NumLaneElts (fun l ShuffleMask =>
    for_range 0 NumLaneElts (fun i ShuffleMask =>
      let Base := uadd i Offset in
      (* if i+offset is out of this lane then we actually need the other
         source *)
      let Base := if NumLaneElts <=? Base
                  then uadd Base (usub NumElts NumLaneElts) else Base in
      Ok (push_back (to_int (uadd Base l)) ShuffleMask)) ShuffleMask)
    ShuffleMask.

(** The loops of the next decoders carry the working immediate [NewImm]
    along with the mask. *)
Definition DecodePSHUFMask (fuel : nat) (VT : MVT) (Imm : Z)
    (ShuffleMask : mask) : result mask :=
  let NumElts := getVectorNumElements VT in
  let NumLanes := getSizeInBits VT / 128 in
  NumLaneElts ← udiv NumElts NumLanes;
  let NewImm := Imm in
  st ← for_ne fuel 0 NumElts NumLaneElts (fun l st =>
    st ← for_range 0 NumLaneElts (fun i '(NewImm, ShuffleMask) =>
      r ← urem NewImm NumLaneElts;
      let ShuffleMask := push_back (to_int (uadd r l)) ShuffleMask in
      NewImm ← udiv NewImm NumLaneElts;
      Ok (NewImm, ShuffleMask)) st;
    let '(NewImm, ShuffleMask) := st in
    Ok (if NumLaneElts =? 4 then Imm (* reload imm *) else NewImm,
        ShuffleMask)) (NewImm, ShuffleMask);
  Ok (snd st).

Definition DecodePSHUFHWMask (fuel : nat) (VT : MVT) (Imm : Z)
    (ShuffleMask : mask) : result mask :=
  let NumElts := getVectorNumElements VT in
  for_ne fuel 0 NumElts 8 (fun l ShuffleMask =>
    let NewImm := Imm in
    ShuffleMask ← for_range 0 4 (fun i ShuffleMask =>
      Ok (push_back (to_int (uadd l i)) ShuffleMask)) ShuffleMask;
    st ← for_range 4 8 (fun i '(NewImm, ShuffleMask) =>
      Ok (Z.shiftr NewImm 2,
          push_back (to_int (uadd (uadd l 4) (Z.land NewImm 3))) ShuffleMask))
      (NewImm, ShuffleMask);
    Ok (snd st)) ShuffleMask.

Definition DecodePSHUFLWMask (fuel : nat) (VT : MVT) (Imm : Z)
    (ShuffleMask : mask) : result mask :=
  let NumElts := getVectorNumElements VT in
  for_ne fuel 0 NumElts 8 (fun l ShuffleMask =>
    let NewImm := Imm in
    st ← for_range 0 4 (fun i '(NewImm, ShuffleMask) =>
      Ok (Z.shiftr NewImm 2,
          push_back (to_int (uadd l (Z.land NewImm 3))) ShuffleMask))
      (NewImm, ShuffleMask);
    for_range 4 8 (fun i ShuffleMask =>
      Ok (push_back (to_int (uadd l i)) ShuffleMask)) (snd st)) ShuffleMask.

Definition DecodeSHUFPMask (fuel : nat) (VT : MVT) (Imm : Z)
    (ShuffleMask : mask) : result mask :=
  let NumElts := getVectorNumElements VT in
  let NumLanes := getSizeInBits VT / 128 in
  NumLaneElts ← udiv NumElts NumLanes;
  let NewImm := Imm in
  st ← for_ne fuel 0 NumElts NumLaneElts (fun l st =>
    (* each half of a lane comes from different source *)
    st ← for_ne fuel 0 (umul NumElts 2) NumElts (fun s st =>
      for_range 0 (NumLaneElts / 2) (fun i '(NewImm, ShuffleMask) =>
        r ← urem NewImm NumLaneElts;
        let ShuffleMask :=
          push_back (to_int (uadd (uadd r s) l)) ShuffleMask in
        NewImm ← udiv NewImm NumLaneElts;
        Ok (NewImm, ShuffleMask)) st) st;
    let '(NewImm, ShuffleMask) := st in
    Ok (if NumLaneElts =? 4 then Imm (* reload imm *) else NewImm,
        ShuffleMask)) (NewImm, ShuffleMask);
  Ok (snd st).

Definition DecodeUNPCKHMask (fuel : nat) (VT : MVT) (ShuffleMask : mask)
    : result mask :=
  let NumElts := getVectorNumElements VT in
  (* Handle 128 and 256-bit vector lengths. AVX defines UNPCK* to operate
     independently on 128-bit lanes. *)
  let NumLanes := getSizeInBits VT / 128 in
  let NumLanes := if NumLanes =? 0 then 1 else NumLanes in (* Handle MMX *)
  NumLaneElts ← udiv NumElts NumLanes;
  for_ne fuel 0 NumElts NumLaneElts (fun l ShuffleMask =>
    for_range (uadd l (NumLaneElts / 2)) (uadd l NumLaneElts)
      (fun i ShuffleMask =>
        let ShuffleMask := push_back (to_int i) ShuffleMask in
        let ShuffleMask := push_back (to_int (uadd i NumElts)) ShuffleMask in
        Ok ShuffleMask) ShuffleMask) ShuffleMask.

Definition DecodeUNPCKLMask (fuel : nat) (VT : MVT) (ShuffleMask : mask)
    : result mask :=
  let NumElts := getVectorNumElements VT in
  let NumLanes := getSizeInBits VT / 128 in
  let NumLanes := if NumLanes =? 0 then 1 else NumLanes in (* Handle MMX *)
  NumLaneElts ← udiv NumElts NumLanes;
  for_ne fuel 0 NumElts NumLaneElts (fun l ShuffleMask =>
    for_range l (uadd l (NumLaneElts / 2))
      (fun i ShuffleMask =>
        let ShuffleMask := push_back (to_int i) ShuffleMask in
        let ShuffleMask := push_back (to_int (uadd i NumElts)) ShuffleMask in
        Ok ShuffleMask) ShuffleMask) ShuffleMask.

Definition DecodeVPERM2X128Mask (VT : MVT) (Imm : Z) (ShuffleMask : mask)
    : result mask :=
  if negb (Z.land Imm 0x88 =? 0) then Ok ShuffleMask (* Not a shuffle *)
  else
    let HalfSize := getVectorNumElements VT / 2 in
    for_range 0 2 (fun l ShuffleMask =>
      sh ← ushr Imm (umul l 4);
      let HalfBegin := umul (Z.land sh 0x3) HalfSize in
      for_range HalfBegin (uadd HalfBegin HalfSize) (fun i ShuffleMask =>
        Ok (push_back (to_int i) ShuffleMask)) ShuffleMask) ShuffleMask.

(** [DecodePSHUFBMask(const ConstantDataSequential *C, ...)];
    [ShuffleMask.reserve] leaves the contents alone. *)
Definition DecodePSHUFBMask_Constant (C : ConstantDataSequential)
    (ShuffleMask : mask) : result mask :=
  _ ← assert (isVectorTy C);
  _ ← assert (getVectorElementBits C =? 8);
  let NumElements := to_int (getTypeNumElements C) in
  (* FIXME: Add support for AVX-512. *)
  _ ← assert ((NumElements =? 16) || (NumElements =? 32));
  _ ← assert (wrap32 NumElements =? getNumElements C);
  for_lt 0 NumElements (fun i ShuffleMask =>
    (* For AVX vectors with 32 bytes the base of the shuffle is the half of
       the vector we're inside. *)
    let Base := if i <? 16 then 0 else 16 in
    let Element := getElementAsInteger C i in
    (* If the high bit (7) of the byte is set, the element is zeroed. *)
    if negb (Z.land Element (Z.shiftl 1 7) =? 0)
    then Ok (push_back SM_SentinelZero ShuffleMask)
    else
      let Index := to_int (wrap64 (Base + Element)) in
      _ ← assert ((0 <=? Index) && (Index <? NumElements));
      Ok (push_back Index ShuffleMask)) ShuffleMask.

(** [DecodePSHUFBMask(ArrayRef<uint64_t> RawMask, ...)]; the size of an
    array held in memory is taken to fit an [int]. *)
Definition DecodePSHUFBMask_Raw (RawMask : list Z) (ShuffleMask : mask)
    : result mask :=
  let e := Z.of_nat (length RawMask) in
  for_lt 0 e (fun i ShuffleMask =>
    let M := nth (Z.to_nat i) RawMask 0 in
    let Base := if i <? 16 then 0 else 16 in
    if negb (Z.land M (Z.shiftl 1 7) =? 0)
    then Ok (push_back SM_SentinelZero ShuffleMask)
    else
      let Index := to_int (wrap64 (Base + M)) in
      _ ← assert ((0 <=? Index)
                  && (wrap32 Index <? Z.of_nat (length RawMask)));
      Ok (push_back Index ShuffleMask)) ShuffleMask.

Definition DecodeBLENDMask (VT : MVT) (Imm : Z) (ShuffleMask : mask)
    : result mask :=
  let NumElements := to_int (getVectorNumElements VT) in
  for_lt 0 NumElements (fun i ShuffleMask =>
    sh ← ushr Imm i;
    Ok (push_back (if negb (Z.land sh 1 =? 0) then NumElements + i else i)
          ShuffleMask)) ShuffleMask.

(** [DecodeVPERMMask]: VPERMQ/VPERMPD, 256-bit vectors of 4 elements. *)
Definition DecodeVPERMMask (Imm : Z) (ShuffleMask : mask) : result mask :=
  for_range 0 4 (fun i ShuffleMask =>
    sh ← ushr Imm (umul 2 i);
    Ok (push_back (to_int (Z.land sh 3)) ShuffleMask)) ShuffleMask.

(** ** Loops as folds over the values of the loop variable *)

Fixpoint foldM {St : Type} (body : Z -> St -> result St) (vals : list Z)
    (s : St) : result St :=
  match vals with
  | [] => Ok s
  | i :: vals => s' ← body i s; foldM body vals s'
  end.

#[global] Instance error_eq_dec : EqDecision error.
Proof. solve_decision. Defined.
#[global] Instance result_eq_dec {A} `{EqDecision A} : EqDecision (result A).
Proof. solve_decision. Defined.

(** ** Masks in the words of the specification *)

(** The mask in the words of the specification: the identity on four
    lanes with position [CountD] replaced by [4 + CountS] and then every
    position whose bit of [ZMask] is set replaced by the sentinel. *)
Definition insertps_mask (Imm : Z) : mask :=
  let ZMask := Z.land Imm 15 in
  let CountD := Z.land (Z.shiftr Imm 4) 3 in
  let CountS := Z.land (Z.shiftr Imm 6) 3 in
  (fun k => if Z.testbit ZMask k then SM_SentinelZero
            else if k =? CountD then 4 + CountS else k) <$> [0; 1; 2; 3].

Definition insertps_facts (Imm : Z) : Prop :=
  DecodeINSERTPSMask Imm [] = Ok (insertps_mask Imm)
  /\ (Z.land Imm 15 = 15 ->
      DecodeINSERTPSMask Imm [] =
      Ok [SM_SentinelZero; SM_SentinelZero; SM_SentinelZero; SM_SentinelZero])
  /\ (Z.testbit (Z.land Imm 15) (Z.land (Z.shiftr Imm 4) 3) = true ->
      insertps_mask Imm !! Z.to_nat (Z.land (Z.shiftr Imm 4) 3)
      = Some SM_SentinelZero).

#[global] Instance insertps_facts_dec Imm : Decision (insertps_facts Imm).
Proof. unfold insertps_facts. apply _. Defined.

(** The 2-bit field of the immediate that selects the source of
    destination half [l] of the cross-lane 128-bit permute. *)
Definition half_select (Imm l : Z) : Z := Z.land (Z.shiftr Imm (4 * l)) 3.

(** The mask of the cross-lane 128-bit permute in the words of the
    specification: destination half [l] is a verbatim copy of the source
    range of [HalfSize] entries that starts at [half_select Imm l * HalfSize]. *)
Definition vperm2x128_mask (VT : MVT) (Imm : Z) : mask :=
  let HalfSize := getVectorNumElements VT / 2 in
  seqZ (half_select Imm 0 * HalfSize) HalfSize
  ++ seqZ (half_select Imm 1 * HalfSize) HalfSize.

(** ** The caller's container

    A decoder is handed a container that may already hold entries:
    [frame p s] is the loop state [s] with the entries [p] in front of its
    mask. *)
Class Framed (St : Type) : Type := frame : list Z -> St -> St.
#[global] Instance mask_framed : Framed (list Z) := fun p m => p ++ m.
#[global] Instance imm_mask_framed : Framed (Z * list Z) :=
  fun p st => (st.1, p ++ st.2).

(** [f] only appends: entries already in the container come back unchanged
    in front of what [f] produces without them. *)
Definition appends {S1 S2 : Type} `{Framed S1} `{Framed S2}
    (f : S1 -> result S2) : Prop :=
  forall p s, f (frame p s) = frame p <$> f s.

(** What the insert-lane decoder does to a container through its writes at
    absolute positions: position [k] becomes the sentinel when bit [k] of
    [ZMask] is set, else [4 + CountS] when [k] is [CountD], and is left
    alone otherwise. *)
Definition insertps_overwrite (Imm : Z) (m : mask) : mask :=
  let ZMask := Z.land Imm 15 in
  let CountD := Z.land (Z.shiftr Imm 4) 3 in
  let CountS := Z.land (Z.shiftr Imm 6) 3 in
  imap (fun k x => if Z.testbit ZMask (Z.of_nat k) then SM_SentinelZero
                   else if Z.of_nat k =? CountD then 4 + CountS else x) m.

(** [f] leaves the entries the container holds on entry in place and puts
    behind them what it produces on an empty container. *)
Definition only_appends (f : mask -> result mask) : Prop :=
  forall M, f M = (app M) <$> f [].

(** ** Lane geometry *)

Definition NumLanes (VT : MVT) : Z := getSizeInBits VT / 128.
Definition NumLaneElts (VT : MVT) : Z := getVectorNumElements VT / NumLanes VT.

(** A vector made of one or more whole 128-bit lanes. *)
Definition whole_lanes (VT : MVT) : Prop :=
  1 <= NumLanes VT
  /\ getVectorNumElements VT mod NumLanes VT = 0
  /\ 0 < getVectorNumElements VT < 2 ^ 29.

(** The mask of the byte-rotate-concatenate decoder: in every lane [k],
    position [i] reads the lane-relative index [i + Offset]; an index past
    the lane moves to the other source by [NumElts - NumLaneElts]; then the
    base of the lane is added. *)
Definition palignr_mask (VT : MVT) (Imm : Z) : mask :=
  let NumElts := getVectorNumElements VT in
  let Offset := Imm * (getVectorElementSizeInBits VT / 8) in
  k ← seqZ 0 (NumLanes VT);
  i ← seqZ 0 (NumLaneElts VT);
  let Base := i + Offset in
  let Base := if NumLaneElts VT <=? Base
              then Base + (NumElts - NumLaneElts VT) else Base in
  [Base + k * NumLaneElts VT].

(** The mask of the byte-rotate-concatenate decoder for an arbitrary
    immediate: the entries of [palignr_mask] with the product and every sum
    reduced to a 32-bit [unsigned], as the code computes them, and the
    result stored as an [int]. *)
Definition palignr_mask_wrapping (VT : MVT) (Imm : Z) : mask :=
  let NumElts := getVectorNumElements VT in
  let Offset := wrap32 (Imm * (getVectorElementSizeInBits VT / 8)) in
  k ← seqZ 0 (NumLanes VT);
  i ← seqZ 0 (NumLaneElts VT);
  let Base := wrap32 (i + Offset) in
  let Base := if NumLaneElts VT <=? Base
              then wrap32 (Base + (NumElts - NumLaneElts VT)) else Base in
  [to_int (wrap32 (Base + k * NumLaneElts VT))].

(** The same mask in the words of the specification, which divides the
    byte offset by the element size [elementSize] before it is added to
    the position. *)
Definition palignr_mask_as_specified (elementSize : Z) (VT : MVT) (Imm : Z)
    : mask :=
  let NumElts := getVectorNumElements VT in
  let Offset := Imm * (getVectorElementSizeInBits VT / 8) in
  k ← seqZ 0 (NumLanes VT);
  i ← seqZ 0 (NumLaneElts VT);
  let Base := i + Offset / elementSize in
  let Base := if NumLaneElts VT <=? Base
              then Base - NumLaneElts VT + NumElts else Base in
  [Base + k * NumLaneElts VT].

(** The mask of the generic permute-by-immediate decoder: position [i] of
    lane [k] holds digit number [digit] of the immediate written in base
    [NumLaneElts], plus the base of the lane.  With four elements to the
    lane the digits are counted from the start of the immediate in every
    lane (the immediate is reloaded); otherwise they are counted across the
    lanes (the immediate keeps draining). *)
Definition pshuf_mask (VT : MVT) (Imm : Z) : mask :=
  let L := NumLaneElts VT in
  k ← seqZ 0 (NumLanes VT);
  i ← seqZ 0 L;
  let digit := if L =? 4 then i else k * L + i in
  [(Imm / L ^ digit) mod L + k * L].

(** The mask of the shuffle-and-pack decoder: each lane takes [L / 2]
    digits for its first half, read from source 1, and [L / 2] digits for
    its second half, read from source 2. *)
Definition shufp_mask (VT : MVT) (Imm : Z) : mask :=
  let L := NumLaneElts VT in
  k ← seqZ 0 (NumLanes VT);
  h ← seqZ 0 2;
  i ← seqZ 0 (L / 2);
  let digit := if L =? 4 then h * (L / 2) + i
               else k * (2 * (L / 2)) + h * (L / 2) + i in
  [(Imm / L ^ digit) mod L + h * getVectorNumElements VT + k * L].

(** The entry that the byte-table decoders emit at position [i] for the
    table entry [Entry], in the words of the specification: the sentinel
    when bit 7 is set, else the low 7 bits plus the base of the 16-byte half
    of [i]. *)
Definition pshufb_index (i : Z) (Entry : Z) : Z :=
  if Z.testbit Entry 7 then SM_SentinelZero
  else Z.land Entry 127 + (if i <? 16 then 0 else 16).

Definition is_byte (x : Z) : Prop := 0 <= x < 256.

(** What one round of the loop of a byte-table decoder pushes for the table
    entry [M] at position [i]; [in_bounds] is the test of the decoder's
    [assert]. *)
Definition table_entry (in_bounds : Z -> bool) (i M : Z) : result Z :=
  let Base := if i <? 16 then 0 else 16 in
  if negb (Z.land M (Z.shiftl 1 7) =? 0) then Ok SM_SentinelZero
  else
    let Index := to_int (wrap64 (Base + M)) in
    _ ← assert (in_bounds Index); Ok Index.

(** The table entries that pass the bounds assertion of the decoders. *)
Definition pshufb_in_bounds (size : Z) (i : Z) (Entry : Z) : Prop :=
  Z.testbit Entry 7 = true
  \/ Z.land Entry 127 + (if i <? 16 then 0 else 16) < size.

(** The constants the typed byte-table decoder accepts: a vector of 16 or
    32 elements of type i8 that holds as many elements as its type says. *)
Definition supported_constant (C : ConstantDataSequential) : Prop :=
  isVectorTy C = true
  /\ getVectorElementBits C = 8
  /\ (to_int (getTypeNumElements C) = 16 \/ to_int (getTypeNumElements C) = 32)
  /\ to_int (getTypeNumElements C) = Z.of_nat (length (elements C)).

(** A 32-entry table whose entry at position 2 is 20 and whose entry at
    position 20 is 5. *)
Definition table_2_20 : list Z :=
  [0; 0; 20; 0; 0; 0; 0; 0; 0; 0; 0; 0; 0; 0; 0; 0;
   0; 0; 0; 0; 5; 0; 0; 0; 0; 0; 0; 0; 0; 0; 0; 0].

(** ** The masks of the remaining decoders *)

Definition movhlps_mask (NElts : Z) : mask :=
  ((fun i => NElts + i) <$> seqZ (NElts / 2) (NElts - NElts / 2))
  ++ seqZ (NElts / 2) (NElts - NElts / 2).

Definition movlhps_mask (NElts : Z) : mask :=
  seqZ 0 (NElts / 2) ++ ((fun i => NElts + i) <$> seqZ 0 (NElts / 2)).

(** The four 2-bit fields of an 8-bit immediate, lowest first. *)
Definition quad_fields (Imm : Z) : list Z :=
  [Z.land Imm 3; Z.land (Z.shiftr Imm 2) 3;
   Z.land (Z.shiftr (Z.shiftr Imm 2) 2) 3;
   Z.land (Z.shiftr (Z.shiftr (Z.shiftr Imm 2) 2) 2) 3].

Definition pshufhw_mask (VT : MVT) (Imm : Z) : mask :=
  k ← seqZ 0 (getVectorNumElements VT / 8);
  ((fun i => k * 8 + i) <$> [0; 1; 2; 3])
  ++ ((fun f => k * 8 + 4 + f) <$> quad_fields Imm).

Definition pshuflw_mask (VT : MVT) (Imm : Z) : mask :=
  k ← seqZ 0 (getVectorNumElements VT / 8);
  ((fun f => k * 8 + f) <$> quad_fields Imm)
  ++ ((fun i => k * 8 + i) <$> [4; 5; 6; 7]).

(** The lane count of the unpack decoders: one lane for vectors narrower
    than 128 bits (MMX). *)
Definition unpack_lanes (VT : MVT) : Z :=
  if NumLanes VT =? 0 then 1 else NumLanes VT.
Definition unpack_lane_elts (VT : MVT) : Z :=
  getVectorNumElements VT / unpack_lanes VT.

(** A vector that the unpack decoders split into whole lanes. *)
Definition unpack_shape (VT : MVT) : Prop :=
  0 <= NumLanes VT
  /\ getVectorNumElements VT mod unpack_lanes VT = 0
  /\ 0 < getVectorNumElements VT < 2 ^ 29.

Definition unpckh_mask (VT : MVT) : mask :=
  let L := unpack_lane_elts VT in
  k ← seqZ 0 (unpack_lanes VT);
  i ← seqZ (k * L + L / 2) (L - L / 2);
  [i; i + getVectorNumElements VT].

Definition unpckl_mask (VT : MVT) : mask :=
  let L := unpack_lane_elts VT in
  k ← seqZ 0 (unpack_lanes VT);
  i ← seqZ (k * L) (L / 2);
  [i; i + getVectorNumElements VT].

Definition vperm_mask (Imm : Z) : mask :=
  [Z.land Imm 3; Z.land (Z.shiftr Imm 2) 3;
   Z.land (Z.shiftr Imm 4) 3; Z.land (Z.shiftr Imm 6) 3].

(** ** The index range of a mask

    Every entry of [m] other than the sentinel lies in [0, 2 * length m). *)
Definition in_range (m : mask) : Prop :=
  Forall (fun x => x <> SM_SentinelZero -> 0 <= x < 2 * Z.of_nat (length m)) m.

(** ** The decode status of the disassembler interface
    (include/llvm/MC/MCDisassembler.h)

    [enum DecodeStatus { Fail = 0, SoftFail = 1, Success = 3 }]. *)
Inductive DecodeStatus : Type := Fail | SoftFail | Success.

Definition DecodeStatus_value (s : DecodeStatus) : Z :=
  match s with
  | Fail => 0
  | SoftFail => 1
  | Success => 3
  end.

(** The table of the header comment, [LEFT & TOP]. *)
Definition DecodeStatus_table (left top : DecodeStatus) : DecodeStatus :=
  match left, top with
  | Success, Success => Success
  | Fail, _ | _, Fail => Fail
  | _, _ => SoftFail
  end.

(** The reduction of the statuses of the parts of an instruction with a
    bitwise AND, starting from [Success]. *)
Definition DecodeStatus_reduce (l : list DecodeStatus) : Z :=
  foldr (fun s acc => Z.land (DecodeStatus_value s) acc)
        (DecodeStatus_value Success) l.

(** The mask of the blend decoder: position [i] reads source 2 when bit
    [i] of the immediate is set. *)
Definition blend_mask (VT : MVT) (Imm : Z) : mask :=
  let NumElements := getVectorNumElements VT in
  (fun i => if Z.testbit Imm i then NumElements + i else i)
    <$> seqZ 0 NumElements.

(** The window that the byte-rotate-concatenate decoder takes in every
    lane [k] when the offset [Off] stays within the lane: the elements of
    the lane of source 1 from [Off] on, then the first [Off] elements of
    the lane of source 2. *)
Definition palignr_window (VT : MVT) (Off : Z) : mask :=
  let N := getVectorNumElements VT in
  let L := NumLaneElts VT in
  k ← seqZ 0 (NumLanes VT);
  seqZ (k * L + Off) (L - Off) ++ seqZ (N + k * L) Off.

(** * Properties *)

(** ** The decoders on the examples of the source comments *)

Example insertps_0 : DecodeINSERTPSMask 0 [] = Ok [4; 1; 2; 3].
Proof. reflexivity. Qed.
Example movhlps_4 : DecodeMOVHLPSMask 4 [] = Ok [6; 7; 2; 3].
Proof. reflexivity. Qed.
Example movhlps_2 : DecodeMOVHLPSMask 2 [] = Ok [3; 1].
Proof. reflexivity. Qed.
Example movlhps_4 : DecodeMOVLHPSMask 4 [] = Ok [0; 1; 4; 5].
Proof. reflexivity. Qed.
Example unpckl_v4i32 : DecodeUNPCKLMask 1 v4i32 [] = Ok [0; 4; 1; 5].
Proof. reflexivity. Qed.
Example unpckh_v4i32 : DecodeUNPCKHMask 1 v4i32 [] = Ok [2; 6; 3; 7].
Proof. reflexivity. Qed.
Example blend_v4i32 : DecodeBLENDMask v4i32 5 [] = Ok [4; 1; 6; 3].
Proof. reflexivity. Qed.
Example vperm_identity : DecodeVPERMMask 0xE4 [] = Ok [0; 1; 2; 3].
Proof. reflexivity. Qed.
Example vperm_reverse : DecodeVPERMMask 0x1B [] = Ok [3; 2; 1; 0].
Proof. reflexivity. Qed.

(** ** Facts about the machine arithmetic *)

Lemma wrap32_small x : 0 <= x < 2 ^ 32 -> wrap32 x = x.
Proof. intros; unfold wrap32; apply Z.mod_small; lia. Qed.

Lemma wrap32_bounds x : 0 <= wrap32 x < 2 ^ 32.
Proof. unfold wrap32; apply Z.mod_pos_bound; lia. Qed.

Lemma to_int_small x : 0 <= x < 2 ^ 31 -> to_int x = x.
Proof.
  intros Hx; unfold to_int.
  rewrite wrap32_small by lia.
  destruct (Z.ltb_spec x (2 ^ 31)); lia.
Qed.

Lemma uadd_small a b : 0 <= a + b < 2 ^ 32 -> uadd a b = a + b.
Proof. apply wrap32_small. Qed.

Lemma usub_small a b : 0 <= a - b < 2 ^ 32 -> usub a b = a - b.
Proof. apply wrap32_small. Qed.

Lemma umul_small a b : 0 <= a * b < 2 ^ 32 -> umul a b = a * b.
Proof. apply wrap32_small. Qed.

Lemma wrap32_uadd_l a b c : wrap32 (uadd a b + c) = wrap32 (a + b + c).
Proof. unfold uadd, wrap32. apply Zplus_mod_idemp_l. Qed.

(** ** Loops and folds *)

Section Folds.
Context {St : Type}.
Implicit Types (body : Z -> St -> result St) (s : St).

Lemma foldM_ext body1 body2 vals s :
  (forall i s, i ∈ vals -> body1 i s = body2 i s) ->
  foldM body1 vals s = foldM body2 vals s.
Proof.
  revert s; induction vals as [|i vals IH]; intros s Hext; simpl; [done|].
  rewrite Hext by left.
  destruct (body2 i s) as [s'|err]; simpl; [|done].
  apply IH; intros; apply Hext; by right.
Qed.

(** A loop whose variable takes the values [a], [a + step], ... and meets
    the bound [e] after [n] rounds runs its body on these [n] values. *)
Lemma for_ne_unroll (n fuel : nat) a e step body s :
  wrap32 a = a ->
  (forall k : nat, (k < n)%nat -> wrap32 (a + Z.of_nat k * step) <> e) ->
  wrap32 (a + Z.of_nat n * step) = e ->
  (n <= fuel)%nat ->
  for_ne fuel a e step body s =
  foldM body ((fun k : nat => wrap32 (a + Z.of_nat k * step)) <$> seq 0 n) s.
Proof.
  revert fuel a s; induction n as [|n IH]; intros fuel a s Ha Hne He Hfuel.
  - simpl in He. rewrite Z.add_0_r, Ha in He. subst e.
    destruct fuel; simpl; by rewrite Z.eqb_refl.
  - destruct fuel as [|fuel]; [lia|].
    pose proof (Hne 0%nat ltac:(lia)) as H0.
    simpl in H0. rewrite Z.add_0_r, Ha in H0.
    cbn [for_ne seq fmap list_fmap foldM].
    change (Z.of_nat 0 * step) with 0. rewrite Z.add_0_r, Ha.
    destruct (Z.eqb_spec a e) as [|_]; [done|].
    destruct (body a s) as [s'|err]; simpl; [|done].
    rewrite (IH fuel (uadd a step) s').
    + f_equal. rewrite <- fmap_S_seq, <- list_fmap_compose.
      apply list_fmap_ext; intros _ k _; simpl.
      rewrite wrap32_uadd_l. f_equal. lia.
    + unfold uadd. apply wrap32_small, wrap32_bounds.
    + intros k Hk. rewrite wrap32_uadd_l.
      replace (a + step + Z.of_nat k * step)
        with (a + Z.of_nat (S k) * step) by lia.
      apply Hne; lia.
    + rewrite wrap32_uadd_l.
      replace (a + step + Z.of_nat n * step)
        with (a + Z.of_nat (S n) * step) by lia.
      done.
    + lia.
Qed.

Lemma for_range_fold a e body s :
  0 <= a <= e -> e < 2 ^ 32 ->
  for_range a e body s = foldM body (seqZ a (e - a)) s.
Proof.
  intros Ha He. unfold for_range.
  rewrite (wrap32_small (e - a)) by lia.
  rewrite (for_ne_unroll (Z.to_nat (e - a))).
  - f_equal. unfold seqZ. apply list_fmap_ext; intros i k Hk.
    apply lookup_seq in Hk as [-> Hk]. rewrite wrap32_small by lia. lia.
  - apply wrap32_small; lia.
  - intros k Hk. rewrite wrap32_small by lia. lia.
  - rewrite wrap32_small by lia. lia.
  - done.
Qed.

Lemma for_ne_stride_fold fuel n step body s :
  0 < step -> 0 <= n -> n * step < 2 ^ 32 -> (Z.to_nat n <= fuel)%nat ->
  for_ne fuel 0 (n * step) step body s =
  foldM body ((fun k => k * step) <$> seqZ 0 n) s.
Proof.
  intros Hstep Hn Hbound Hfuel.
  rewrite (for_ne_unroll (Z.to_nat n)).
  - f_equal. unfold seqZ. rewrite <- list_fmap_compose.
    apply list_fmap_ext; intros i k Hk.
    apply lookup_seq in Hk as [-> Hk]. simpl.
    rewrite wrap32_small by nia. lia.
  - done.
  - intros k Hk. rewrite wrap32_small by nia. nia.
  - rewrite wrap32_small by nia. nia.
  - done.
Qed.

Lemma for_lt_fuel_fold fuel a e body s :
  (Z.to_nat (e - a) <= fuel)%nat ->
  for_lt_fuel fuel a e body s = foldM body (seqZ a (e - a)) s.
Proof.
  revert a s; induction fuel as [|fuel IH]; intros a s Hfuel; simpl.
  - destruct (Z.ltb_spec a e); [lia|]. by rewrite seqZ_nil by lia.
  - destruct (Z.ltb_spec a e).
    + rewrite seqZ_cons by lia. simpl.
      destruct (body a s) as [s'|err]; simpl; [|done].
      rewrite IH by lia. f_equal. f_equal; lia.
    + by rewrite seqZ_nil by lia.
Qed.

Lemma for_lt_fold a e body s :
  for_lt a e body s = foldM body (seqZ a (e - a)) s.
Proof. by apply for_lt_fuel_fold. Qed.
End Folds.

(** A loop that only pushes: the pushed entries, in order. *)
Lemma foldM_push (g : Z -> list Z) (body : Z -> mask -> result mask) vals m :
  (forall i m, i ∈ vals -> body i m = Ok (m ++ g i)) ->
  foldM body vals m = Ok (m ++ (vals ≫= g)).
Proof.
  revert m; induction vals as [|i vals IH]; intros m Hbody; simpl.
  - by rewrite app_nil_r.
  - rewrite Hbody by left. simpl.
    rewrite IH by (intros; apply Hbody; by right).
    by rewrite <- app_assoc.
Qed.

Lemma length_bind_const {A B} (f : A -> list B) (c : nat) (l : list A) :
  (forall x, x ∈ l -> length (f x) = c) ->
  length (l ≫= f) = (length l * c)%nat.
Proof.
  induction l as [|x l IH]; intros Hf; [done|].
  rewrite bind_cons, length_app, Hf, IH by (try left; intros; apply Hf; by right).
  simpl. lia.
Qed.

Lemma bind_unit_fmap {A B} (f : A -> B) (l : list A) :
  l ≫= (fun x => [f x]) = f <$> l.
Proof. induction l as [|x l IH]; [done|]. by rewrite bind_cons, IH. Qed.

Lemma fmap_to_int_seqZ a n :
  0 <= a -> a + n <= 2 ^ 31 -> to_int <$> seqZ a n = seqZ a n.
Proof.
  intros Ha Hn. rewrite <- (list_fmap_id (seqZ a n)) at 2.
  apply list_fmap_ext; intros i x Hx.
  apply lookup_seqZ in Hx as [-> Hi]. unfold id. apply to_int_small. lia.
Qed.

(** ** The insert-lane decoder *)

Lemma insertps_all_immediates : Forall insertps_facts (seqZ 0 256).
Proof. apply (bool_decide_unpack _). vm_compute. exact I. Qed.

(** C3 (amended). For every 8-bit immediate the insert-lane decoder yields
    the identity on four lanes with position [CountD] replaced by
    [4 + CountS] and then every position whose [ZMask] bit is set replaced by
    the sentinel; a [ZMask] of [0b1111] yields the all-sentinel mask whatever
    the select fields are, a [ZMask] bit at position [CountD] makes that
    position the sentinel, and the immediate [0] yields [[4; 1; 2; 3]]. *)
Theorem C3_insertps_mask_amended (Imm : Z) :
  0 <= Imm < 256 ->
  DecodeINSERTPSMask Imm [] = Ok (insertps_mask Imm)
  /\ (Z.land Imm 15 = 15 ->
      DecodeINSERTPSMask Imm [] =
      Ok [SM_SentinelZero; SM_SentinelZero; SM_SentinelZero; SM_SentinelZero])
  /\ (Z.testbit (Z.land Imm 15) (Z.land (Z.shiftr Imm 4) 3) = true ->
      insertps_mask Imm !! Z.to_nat (Z.land (Z.shiftr Imm 4) 3)
      = Some SM_SentinelZero)
  /\ DecodeINSERTPSMask 0 [] = Ok [4; 1; 2; 3].
Proof.
  intros HImm.
  pose proof (proj1 (Forall_seqZ _ _ _) insertps_all_immediates Imm
                ltac:(lia)) as (H1 & H2 & H3).
  repeat split; done.
Qed.

Lemma C3_insertps_mask_witness :
  0 <= 0x58 < 256 /\ DecodeINSERTPSMask 0x58 [] = Ok [0; 5; 2; -1].
Proof.
  split; [lia|].
  exact (proj1 (C3_insertps_mask_amended 0x58 ltac:(lia))).
Defined.

(** C3 as stated fails at its own example: the immediate [0] selects
    destination lane 0 and source lane 0, so lane 0 of the mask is [4]. *)
Lemma C3_insertps_zero_immediate_counterexample :
  0 <= 0 < 256
  /\ DecodeINSERTPSMask 0 [] = Ok [4; 1; 2; 3]
  /\ DecodeINSERTPSMask 0 [] <> Ok [0; 1; 2; 3].
Proof. split; [lia|]. split; [reflexivity|discriminate]. Qed.

(** ** The cross-lane 128-bit permute decoder *)

Lemma half_select_bounds Imm l : 0 <= half_select Imm l <= 3.
Proof.
  unfold half_select.
  assert (Z.land (Z.shiftr Imm (4 * l)) 3 = Z.shiftr Imm (4 * l) mod 4) as ->.
  { change 3 with (Z.ones 2). rewrite Z.land_ones by lia. done. }
  pose proof (Z.mod_pos_bound (Z.shiftr Imm (4 * l)) 4). lia.
Qed.

Lemma DecodeVPERM2X128Mask_shuffle VT Imm M :
  Z.land Imm 0x88 = 0 ->
  0 <= getVectorNumElements VT < 2 ^ 30 ->
  DecodeVPERM2X128Mask VT Imm M = Ok (M ++ vperm2x128_mask VT Imm).
Proof.
  intros Hbits HN. unfold DecodeVPERM2X128Mask, vperm2x128_mask.
  rewrite Hbits. simpl negb. cbv iota.
  set (H := getVectorNumElements VT / 2).
  assert (0 <= H < 2 ^ 29) as HH
    by (subst H; split;
        [apply Z.div_pos; lia | apply Z.div_lt_upper_bound; lia]).
  rewrite for_range_fold by lia.
  change (seqZ 0 (2 - 0)) with [0; 1].
  pose proof (half_select_bounds Imm 0) as H0.
  pose proof (half_select_bounds Imm 1) as H1.
  assert (forall l m, l = 0 \/ l = 1 ->
    (sh ← ushr Imm (umul l 4);
     let HalfBegin := umul (Z.land sh 3) H in
     for_range HalfBegin (uadd HalfBegin H)
       (fun i ShuffleMask => Ok (push_back (to_int i) ShuffleMask)) m)
    = Ok (m ++ seqZ (half_select Imm l * H) H)) as Hbody.
  { intros l m Hl.
    assert (umul l 4 = 4 * l) as -> by (destruct Hl; subst; reflexivity).
    assert (ushr Imm (4 * l) = Ok (Z.shiftr Imm (4 * l))) as ->
      by (destruct Hl; subst; reflexivity).
    cbn [mbind result_bind]. fold (half_select Imm l).
    pose proof (half_select_bounds Imm l) as Hl'.
    cbv zeta.
    rewrite umul_small by nia. rewrite uadd_small by nia.
    rewrite for_range_fold by nia.
    rewrite (foldM_push (fun i => [to_int i])) by done.
    rewrite bind_unit_fmap.
    replace (half_select Imm l * H + H - half_select Imm l * H) with H by lia.
    rewrite fmap_to_int_seqZ by nia. done. }
  cbn [foldM]. rewrite Hbody by auto. cbn [mbind result_bind].
  rewrite Hbody by auto. by rewrite <- app_assoc.
Qed.

Lemma DecodeVPERM2X128Mask_not_shuffle VT Imm M :
  Z.land Imm 0x88 <> 0 -> DecodeVPERM2X128Mask VT Imm M = Ok M.
Proof.
  intros Hbits. unfold DecodeVPERM2X128Mask.
  by destruct (Z.eqb_spec (Z.land Imm 0x88) 0).
Qed.

Lemma land_0x88_bits Imm :
  Z.land Imm 0x88 <> 0 <-> Z.testbit Imm 3 = true \/ Z.testbit Imm 7 = true.
Proof.
  split.
  - intros Hne.
    destruct (Z.testbit Imm 3) eqn:H3; [by left|].
    destruct (Z.testbit Imm 7) eqn:H7; [by right|].
    exfalso; apply Hne. apply Z.bits_inj'; intros n Hn.
    rewrite Z.land_spec, Z.bits_0.
    destruct (Z.eq_dec n 3) as [->|]; [by rewrite H3|].
    destruct (Z.eq_dec n 7) as [->|]; [by rewrite H7|].
    replace (Z.testbit 136 n) with false; [by rewrite andb_false_r|].
    symmetry.
    destruct (Z.ltb_spec n 8).
    + assert (n = 0 \/ n = 1 \/ n = 2 \/ n = 4 \/ n = 5 \/ n = 6) as Hcases
        by lia.
      by destruct Hcases as [->|[->|[->|[->|[->| ->]]]]].
    + change 136 with (136 mod 2 ^ 8).
      apply Z.mod_pow2_bits_high; lia.
  - intros Hbit Hz.
    assert (Z.testbit (Z.land Imm 0x88) 3 = false
            /\ Z.testbit (Z.land Imm 0x88) 7 = false) as [H3 H7]
      by (rewrite Hz; split; apply Z.bits_0).
    rewrite Z.land_spec in H3, H7.
    change (Z.testbit 136 3) with true in H3.
    change (Z.testbit 136 7) with true in H7.
    rewrite andb_true_r in H3, H7. destruct Hbit; congruence.
Qed.

Lemma vperm2x128_mask_length VT Imm :
  0 <= getVectorNumElements VT ->
  Z.of_nat (length (vperm2x128_mask VT Imm))
  = 2 * (getVectorNumElements VT / 2).
Proof.
  intros HN. unfold vperm2x128_mask.
  rewrite length_app, !length_seqZ.
  assert (0 <= getVectorNumElements VT / 2) by (apply Z.div_pos; lia).
  lia.
Qed.

Lemma vperm2x128_mask_populated VT Imm :
  0 <= getVectorNumElements VT ->
  Forall (fun x => x <> SM_SentinelZero) (vperm2x128_mask VT Imm).
Proof.
  intros HN. unfold vperm2x128_mask.
  assert (0 <= getVectorNumElements VT / 2) by (apply Z.div_pos; lia).
  pose proof (half_select_bounds Imm 0). pose proof (half_select_bounds Imm 1).
  apply Forall_app; split; apply Forall_seqZ; intros x Hx;
    unfold SM_SentinelZero; nia.
Qed.

(** C2. On a shape of two halves (an even, positive number of elements)
    the cross-lane 128-bit permute decoder produces the empty mask exactly
    when [Imm & 0x88] is non-zero, that is when bit 3 or bit 7 of the
    immediate is set; for every other immediate it produces a mask without
    sentinel entries whose length is the element count of the vector. *)
Theorem C2_vperm2x128_empty_iff_reserved_bits (VT : MVT) (Imm : Z) :
  2 <= getVectorNumElements VT < 2 ^ 30 ->
  getVectorNumElements VT mod 2 = 0 ->
  (DecodeVPERM2X128Mask VT Imm [] = Ok [] <-> Z.land Imm 0x88 <> 0)
  /\ (Z.land Imm 0x88 <> 0 <->
      Z.testbit Imm 3 = true \/ Z.testbit Imm 7 = true)
  /\ (Z.land Imm 0x88 = 0 ->
      exists m, DecodeVPERM2X128Mask VT Imm [] = Ok m
        /\ Z.of_nat (length m) = getVectorNumElements VT
        /\ Forall (fun x => x <> SM_SentinelZero) m).
Proof.
  intros HN Heven.
  assert (2 * (getVectorNumElements VT / 2) = getVectorNumElements VT) as H2.
  { pose proof (Z.div_mod (getVectorNumElements VT) 2 ltac:(lia)). lia. }
  split; [|split].
  - split.
    + intros Hempty Hz.
      rewrite DecodeVPERM2X128Mask_shuffle in Hempty by (done || lia).
      pose proof (vperm2x128_mask_length VT Imm ltac:(lia)) as Hlen.
      simpl in Hempty. injection Hempty as Hempty.
      rewrite Hempty in Hlen. simpl in Hlen. lia.
    + apply DecodeVPERM2X128Mask_not_shuffle.
  - apply land_0x88_bits.
  - intros Hz. exists (vperm2x128_mask VT Imm). split; [|split].
    + rewrite DecodeVPERM2X128Mask_shuffle by (done || lia). done.
    + rewrite vperm2x128_mask_length by lia. done.
    + apply vperm2x128_mask_populated; lia.
Qed.

Lemma C2_vperm2x128_witness :
  2 <= getVectorNumElements v8i32 < 2 ^ 30
  /\ getVectorNumElements v8i32 mod 2 = 0
  /\ (DecodeVPERM2X128Mask v8i32 0x80 [] = Ok [] <-> Z.land 0x80 0x88 <> 0).
Proof.
  assert (2 <= getVectorNumElements v8i32 < 2 ^ 30) as H1 by (simpl; lia).
  assert (getVectorNumElements v8i32 mod 2 = 0) as H2 by reflexivity.
  split; [exact H1|]. split; [exact H2|].
  exact (proj1 (C2_vperm2x128_empty_iff_reserved_bits v8i32 0x80 H1 H2)).
Defined.

(** C7 (amended). On the 8-element shape the immediate [0x20] has the
    half-select fields [0] (bits 0-1) and [2] (bits 4-5): destination half 0
    copies entries [0..3] and destination half 1 copies entries [8..11], so
    the mask is [[0;1;2;3;8;9;10;11]]; the mask [[4;5;6;7;0;1;2;3]] is the
    one of the immediate [0x01]. *)
Theorem C7_vperm2x128_0x20_amended :
  DecodeVPERM2X128Mask v8i32 0x20 [] = Ok [0; 1; 2; 3; 8; 9; 10; 11]
  /\ half_select 0x20 0 = 0 /\ half_select 0x20 1 = 2
  /\ vperm2x128_mask v8i32 0x20 = [0; 1; 2; 3; 8; 9; 10; 11]
  /\ DecodeVPERM2X128Mask v8i32 0x01 [] = Ok [4; 5; 6; 7; 0; 1; 2; 3].
Proof. repeat split; reflexivity. Qed.

(** C7 as stated fails: the decoder does not yield [[4;5;6;7;0;1;2;3]] on
    the immediate [0x20]. *)
Lemma C7_vperm2x128_0x20_counterexample :
  DecodeVPERM2X128Mask v8i32 0x20 [] <> Ok [4; 5; 6; 7; 0; 1; 2; 3].
Proof. vm_compute. discriminate. Qed.

(** ** Decoders that only append *)

Section Appends.
Context {St : Type} `{Framed St}.
Implicit Types (body : Z -> St -> result St).

Lemma appends_for_ne fuel i e step body :
  (forall i, appends (body i)) -> appends (for_ne fuel i e step body).
Proof.
  intros Hbody. revert i; induction fuel as [|fuel IH]; intros i p s; simpl.
  - by destruct (i =? e).
  - destruct (i =? e); [done|]. rewrite Hbody.
    destruct (body i s) as [s'|err]; simpl; [apply IH|done].
Qed.

Lemma appends_for_range a e body :
  (forall i, appends (body i)) -> appends (for_range a e body).
Proof. apply appends_for_ne. Qed.

Lemma appends_for_lt a e body :
  (forall i, appends (body i)) -> appends (for_lt a e body).
Proof.
  intros Hbody. unfold for_lt. generalize (Z.to_nat (e - a)) as fuel.
  intros fuel; revert a; induction fuel as [|fuel IH]; intros a p s; simpl.
  - by destruct (a <? e).
  - destruct (a <? e); [|done]. rewrite Hbody.
    destruct (body a s) as [s'|err]; simpl; [apply IH|done].
Qed.
End Appends.

Lemma appends_bind {S1 S2 S3 : Type} `{Framed S1} `{Framed S2} `{Framed S3}
    (f : S1 -> result S2) (g : S2 -> result S3) :
  appends f -> appends g -> appends (fun s => s' ← f s; g s').
Proof.
  intros Hf Hg p s. rewrite Hf.
  destruct (f s) as [s'|err]; simpl; [apply Hg|done].
Qed.

Lemma appends_push v : appends (fun m : list Z => Ok (push_back v m)).
Proof. intros p m. simpl. unfold push_back, frame, mask_framed. by rewrite app_assoc. Qed.

Lemma appends_push_imm (f : Z -> Z) (v : Z -> Z) :
  appends (fun '(NewImm, ShuffleMask) =>
             Ok (f NewImm, push_back (v NewImm) ShuffleMask)).
Proof.
  intros p [N m]. simpl.
  unfold push_back, frame, imm_mask_framed. simpl. by rewrite app_assoc.
Qed.

Lemma appends_digit (L : Z) (v : Z -> Z) :
  appends (fun '(NewImm, ShuffleMask) =>
    r ← urem NewImm L;
    let ShuffleMask := push_back (v r) ShuffleMask in
    NewImm ← udiv NewImm L;
    Ok (NewImm, ShuffleMask)).
Proof.
  intros p [N m]. unfold urem, udiv. destruct (L =? 0); simpl; [done|].
  unfold push_back, frame, imm_mask_framed. simpl. by rewrite app_assoc.
Qed.

Lemma appends_reload (L Imm : Z) :
  appends (fun st : Z * list Z =>
    let '(NewImm, ShuffleMask) := st in
    Ok (if L =? 4 then Imm else NewImm, ShuffleMask)).
Proof. by intros p [N m]. Qed.

Lemma DecodeMOVHLPSMask_appends NElts : appends (DecodeMOVHLPSMask NElts).
Proof.
  apply appends_bind; apply appends_for_range; intros i; apply appends_push.
Qed.

Lemma DecodeMOVLHPSMask_appends NElts : appends (DecodeMOVLHPSMask NElts).
Proof.
  apply appends_bind; apply appends_for_range; intros i; apply appends_push.
Qed.

Lemma DecodePALIGNRMask_appends fuel VT Imm :
  appends (DecodePALIGNRMask fuel VT Imm).
Proof.
  intros p m. unfold DecodePALIGNRMask.
  destruct (udiv _ _) as [L|err]; simpl; [|done].
  apply appends_for_ne; intros l. apply appends_for_range; intros i.
  apply appends_push.
Qed.

Lemma DecodePSHUFMask_appends fuel VT Imm :
  appends (DecodePSHUFMask fuel VT Imm).
Proof.
  intros p m. unfold DecodePSHUFMask.
  destruct (udiv _ _) as [L|err]; simpl; [|done].
  match goal with
  | |- context [for_ne fuel 0 ?N L ?body (Imm, m)] =>
      assert (appends (for_ne fuel 0 N L body)) as Hloop
  end.
  { apply appends_for_ne; intros l.
    apply appends_bind; [|apply appends_reload].
    apply appends_for_range; intros i.
    apply (appends_digit L (fun r => to_int (uadd r l))). }
  change (Imm, frame p m) with (frame p (Imm, m)). rewrite Hloop.
  by destruct (for_ne _ _ _ _ _ _) as [[N' m']|err].
Qed.

Lemma appends_enter_range (N a e : Z) body (k : list Z -> result (list Z)) :
  (forall i, appends (body i)) -> appends k ->
  appends (fun m : list Z => st ← for_range a e body (N, m); k (st.2)).
Proof.
  intros Hbody Hk p m.
  change (N, frame p m) with (frame p (N, m)).
  rewrite (appends_for_range a e body Hbody).
  destruct (for_range a e body (N, m)) as [[N' m']|err]; simpl; [|done].
  apply Hk.
Qed.

Lemma DecodePSHUFHWMask_appends fuel VT Imm :
  appends (DecodePSHUFHWMask fuel VT Imm).
Proof.
  apply appends_for_ne; intros l. cbv zeta.
  apply appends_bind; [apply appends_for_range; intros i; apply appends_push|].
  apply (appends_enter_range Imm 4 8 _ (fun m => Ok m)); [|by intros p m].
  intros i.
  apply (appends_push_imm (fun N => Z.shiftr N 2)
           (fun N => to_int (uadd (uadd l 4) (Z.land N 3)))).
Qed.

Lemma DecodePSHUFLWMask_appends fuel VT Imm :
  appends (DecodePSHUFLWMask fuel VT Imm).
Proof.
  apply appends_for_ne; intros l. cbv zeta.
  apply (appends_enter_range Imm 0 4).
  - intros i.
    apply (appends_push_imm (fun N => Z.shiftr N 2)
             (fun N => to_int (uadd l (Z.land N 3)))).
  - apply appends_for_range; intros i; apply appends_push.
Qed.

Lemma DecodeSHUFPMask_appends fuel VT Imm :
  appends (DecodeSHUFPMask fuel VT Imm).
Proof.
  intros p m. unfold DecodeSHUFPMask.
  destruct (udiv _ _) as [L|err]; simpl; [|done].
  match goal with
  | |- context [for_ne fuel 0 ?N L ?body (Imm, m)] =>
      assert (appends (for_ne fuel 0 N L body)) as Hloop
  end.
  { apply appends_for_ne; intros l.
    apply appends_bind; [|apply appends_reload].
    apply appends_for_ne; intros s.
    apply appends_for_range; intros i.
    apply (appends_digit L (fun r => to_int (uadd (uadd r s) l))). }
  change (Imm, frame p m) with (frame p (Imm, m)). rewrite Hloop.
  by destruct (for_ne _ _ _ _ _ _) as [[N' m']|err].
Qed.

Lemma appends_push2 v w :
  appends (fun ShuffleMask : list Z =>
    let ShuffleMask := push_back v ShuffleMask in
    let ShuffleMask := push_back w ShuffleMask in
    Ok ShuffleMask).
Proof.
  intros p m. simpl. unfold push_back, frame, mask_framed.
  by rewrite !app_assoc.
Qed.

Lemma DecodeUNPCKHMask_appends fuel VT : appends (DecodeUNPCKHMask fuel VT).
Proof.
  intros p m. unfold DecodeUNPCKHMask.
  destruct (udiv _ _) as [L|err]; simpl; [|done].
  apply appends_for_ne; intros l. apply appends_for_range; intros i.
  apply appends_push2.
Qed.

Lemma DecodeUNPCKLMask_appends fuel VT : appends (DecodeUNPCKLMask fuel VT).
Proof.
  intros p m. unfold DecodeUNPCKLMask.
  destruct (udiv _ _) as [L|err]; simpl; [|done].
  apply appends_for_ne; intros l. apply appends_for_range; intros i.
  apply appends_push2.
Qed.

Lemma DecodeVPERM2X128Mask_appends VT Imm :
  appends (DecodeVPERM2X128Mask VT Imm).
Proof.
  intros p m. unfold DecodeVPERM2X128Mask.
  destruct (negb _); [done|].
  apply appends_for_range; intros l p' m'.
  destruct (ushr _ _) as [sh|err]; simpl; [|done].
  apply appends_for_range; intros i. apply appends_push.
Qed.

Lemma appends_table_entry (zero : bool) (ok : bool) (Index : Z) :
  appends (fun ShuffleMask : list Z =>
    if zero then Ok (push_back SM_SentinelZero ShuffleMask)
    else _ ← assert ok; Ok (push_back Index ShuffleMask)).
Proof.
  intros p m. destruct zero; [apply appends_push|].
  destruct ok; simpl; [apply appends_push|done].
Qed.

Lemma DecodePSHUFBMask_Constant_appends C :
  appends (DecodePSHUFBMask_Constant C).
Proof.
  intros p m. unfold DecodePSHUFBMask_Constant.
  destruct (isVectorTy C); simpl; [|done].
  destruct (getVectorElementBits C =? 8); simpl; [|done].
  destruct (_ || _); simpl; [|done].
  destruct (wrap32 _ =? _); simpl; [|done].
  apply appends_for_lt; intros i. apply appends_table_entry.
Qed.

Lemma DecodePSHUFBMask_Raw_appends RawMask :
  appends (DecodePSHUFBMask_Raw RawMask).
Proof. apply appends_for_lt; intros i. apply appends_table_entry. Qed.

Lemma DecodeBLENDMask_appends VT Imm : appends (DecodeBLENDMask VT Imm).
Proof.
  apply appends_for_lt; intros i p m.
  destruct (ushr _ _) as [sh|err]; simpl; [|done]. apply appends_push.
Qed.

Lemma DecodeVPERMMask_appends Imm : appends (DecodeVPERMMask Imm).
Proof.
  apply appends_for_range; intros i p m.
  destruct (ushr _ _) as [sh|err]; simpl; [|done]. apply appends_push.
Qed.

(** ** The insert-lane decoder and the caller's container *)

Lemma land_3_cases x :
  Z.land x 3 = 0 \/ Z.land x 3 = 1 \/ Z.land x 3 = 2 \/ Z.land x 3 = 3.
Proof.
  assert (Z.land x 3 = x mod 4) as ->.
  { change 3 with (Z.ones 2). by rewrite Z.land_ones by lia. }
  pose proof (Z.mod_pos_bound x 4). lia.
Qed.

Lemma land_pow2_eqb z k :
  0 <= k -> (Z.land z (2 ^ k) =? 0) = negb (Z.testbit z k).
Proof.
  intros Hk.
  assert (Z.land z (2 ^ k) = if Z.testbit z k then 2 ^ k else 0) as ->.
  { apply Z.bits_inj'; intros n Hn.
    rewrite Z.land_spec, Z.pow2_bits_eqb by done.
    destruct (Z.eqb_spec k n) as [->|Hne].
    - rewrite andb_true_r. destruct (Z.testbit z n);
        [by rewrite Z.pow2_bits_true|by rewrite Z.bits_0].
    - rewrite andb_false_r. destruct (Z.testbit z k);
        [by rewrite Z.pow2_bits_false|by rewrite Z.bits_0]. }
  destruct (Z.testbit z k); [|done].
  apply Z.eqb_neq. pose proof (Z.pow_pos_nonneg 2 k). lia.
Qed.

Lemma land_15_high_bits Imm k : 4 <= k -> Z.testbit (Z.land Imm 15) k = false.
Proof.
  intros Hk. rewrite Z.land_spec.
  change 15 with (15 mod 2 ^ 4).
  rewrite (Z.mod_pow2_bits_high 15 4 k) by lia. apply andb_false_r.
Qed.

Lemma set_at_in_range idx v (m : mask) :
  0 <= idx < Z.of_nat (length m) ->
  set_at idx v m = Ok (<[Z.to_nat idx := v]> m).
Proof.
  intros Hidx. unfold set_at.
  destruct (Z.leb_spec 0 idx); [|lia].
  destruct (Z.ltb_spec idx (Z.of_nat (length m))); [done|lia].
Qed.

Lemma four_lanes_pushed (M : mask) :
  exists a b c e T, M ++ [0; 1; 2; 3] = a :: b :: c :: e :: T.
Proof. destruct M as [|a [|b [|c [|e M]]]]; simpl; eauto 6. Qed.

Local Arguments Z.testbit : simpl never.

Ltac insertps_write :=
  cbn [negb mbind result_bind];
  try (rewrite set_at_in_range
         by (rewrite ?length_insert; simpl length; lia);
       cbn [mbind result_bind]).

Lemma DecodeINSERTPSMask_overwrite Imm M :
  DecodeINSERTPSMask Imm M = Ok (insertps_overwrite Imm (M ++ [0; 1; 2; 3])).
Proof.
  unfold DecodeINSERTPSMask, insertps_overwrite.
  assert (push_back 3 (push_back 2 (push_back 1 (push_back 0 M)))
          = M ++ [0; 1; 2; 3]) as ->
    by (unfold push_back; by rewrite <- !app_assoc).
  destruct (four_lanes_pushed M) as (a & b & c & e & T & ->).
  cbv zeta.
  pose proof (land_15_high_bits Imm) as Hhigh.
  set (ZMask := Z.land Imm 15) in *.
  pose proof (land_pow2_eqb ZMask 0 ltac:(lia)) as B0.
  pose proof (land_pow2_eqb ZMask 1 ltac:(lia)) as B1.
  pose proof (land_pow2_eqb ZMask 2 ltac:(lia)) as B2.
  pose proof (land_pow2_eqb ZMask 3 ltac:(lia)) as B3.
  change (2 ^ 0) with 1 in B0. change (2 ^ 1) with 2 in B1.
  change (2 ^ 2) with 4 in B2. change (2 ^ 3) with 8 in B3.
  rewrite B0, B1, B2, B3. clear B0 B1 B2 B3.
  set (CountS := Z.land (Z.shiftr Imm 6) 3).
  assert (to_int (uadd 4 CountS) = 4 + CountS) as ->.
  { unfold uadd. pose proof (land_3_cases (Z.shiftr Imm 6)).
    rewrite wrap32_small, to_int_small; fold CountS; lia. }
  change (a :: b :: c :: e :: T) with ([a; b; c; e] ++ T) at 2.
  rewrite imap_app.
  match goal with
  | |- context [imap ?f T] => assert (imap f T = T) as ->
  end.
  { rewrite <- (list_fmap_id T) at 2. rewrite <- imap_const.
    apply imap_ext; intros i x _. unfold compose. cbn [length].
    rewrite Hhigh by lia.
    pose proof (land_3_cases (Z.shiftr Imm 4)).
    destruct (Z.eqb_spec (Z.of_nat (4 + i))
                (Z.land (Z.shiftr Imm 4) 3)); [lia|done]. }
  destruct (land_3_cases (Z.shiftr Imm 4)) as [-> | [-> | [-> | ->]]];
    insertps_write;
    destruct (Z.testbit ZMask 0) eqn:Z0; insertps_write;
    destruct (Z.testbit ZMask 1) eqn:Z1; insertps_write;
    destruct (Z.testbit ZMask 2) eqn:Z2; insertps_write;
    destruct (Z.testbit ZMask 3) eqn:Z3; insertps_write;
    change (length [a; b; c; e]) with 4%nat;
    cbn [imap app compose];
    change (Z.of_nat 0) with 0; change (Z.of_nat 1) with 1;
    change (Z.of_nat 2) with 2; change (Z.of_nat 3) with 3;
    rewrite Z0, Z1, Z2, Z3; reflexivity.
Qed.

Lemma insertps_overwrite_fresh Imm :
  insertps_overwrite Imm [0; 1; 2; 3] = insertps_mask Imm.
Proof. reflexivity. Qed.

Lemma insertps_overwrite_lookup Imm (m : mask) (k : nat) (x : Z) :
  m !! k = Some x ->
  insertps_overwrite Imm m !! k
  = Some (if Z.testbit (Z.land Imm 15) (Z.of_nat k) then SM_SentinelZero
          else if Z.of_nat k =? Z.land (Z.shiftr Imm 4) 3
               then 4 + Z.land (Z.shiftr Imm 6) 3 else x).
Proof.
  intros Hk. unfold insertps_overwrite. cbv zeta.
  by rewrite list_lookup_imap, Hk.
Qed.

Lemma insertps_overwrite_long Imm (M : mask) :
  (4 <= length M)%nat ->
  insertps_overwrite Imm (M ++ [0; 1; 2; 3])
  = insertps_overwrite Imm M ++ [0; 1; 2; 3].
Proof.
  intros Hlen. unfold insertps_overwrite. cbv zeta. rewrite imap_app. f_equal.
  pose proof (land_3_cases (Z.shiftr Imm 4)) as HD.
  assert (forall k x : Z, 4 <= k ->
    (if Z.testbit (Z.land Imm 15) k then SM_SentinelZero
     else if k =? Z.land (Z.shiftr Imm 4) 3
          then 4 + Z.land (Z.shiftr Imm 6) 3 else x) = x) as Hskip.
  { intros k x Hk. rewrite land_15_high_bits by done.
    destruct (Z.eqb_spec k (Z.land (Z.shiftr Imm 4) 3)); [lia|done]. }
  cbn [imap compose]. by rewrite !Hskip by lia.
Qed.

(** With no zero bit set and a destination at or past the number of old
    entries the one write lands on a fresh entry: the old entries come back
    unchanged. *)
Lemma DecodeINSERTPSMask_short_container Imm (M : mask) :
  Z.land Imm 15 = 0 ->
  Z.of_nat (length M) <= Z.land (Z.shiftr Imm 4) 3 ->
  DecodeINSERTPSMask Imm M
  = Ok (M ++ <[(Z.to_nat (Z.land (Z.shiftr Imm 4) 3) - length M)%nat
                 := 4 + Z.land (Z.shiftr Imm 6) 3]> [0; 1; 2; 3]).
Proof.
  intros HZ HD. rewrite DecodeINSERTPSMask_overwrite. f_equal.
  unfold insertps_overwrite. cbv zeta. rewrite HZ.
  destruct (land_3_cases (Z.shiftr Imm 4)) as [HC | [HC | [HC | HC]]];
    rewrite HC in *;
    destruct M as [|a [|b [|c [|e M]]]]; simpl in HD; try lia; reflexivity.
Qed.

(** A container that holds entries on entry does not come back as these
    entries followed by the insert-lane mask. *)
Lemma DecodeINSERTPSMask_needs_empty Imm (M : mask) :
  M <> [] -> DecodeINSERTPSMask Imm M <> Ok (M ++ insertps_mask Imm).
Proof.
  intros HM Heq. rewrite DecodeINSERTPSMask_overwrite in Heq.
  injection Heq as Heq.
  set (n := length M). assert (1 <= n)%nat as Hn.
  { subst n. destruct M; [done|simpl; lia]. }
  set (W := fun k : nat =>
         Z.testbit (Z.land Imm 15) (Z.of_nat k) = true
         \/ Z.of_nat k = Z.land (Z.shiftr Imm 4) 3).
  pose proof (land_3_cases (Z.shiftr Imm 6)) as HS.
  pose proof (land_3_cases (Z.shiftr Imm 4)) as HD.
  assert (forall j : nat, (j < 4)%nat -> W j -> W (n + j)%nat) as Hstep.
  { intros j Hj HW.
    assert ([0; 1; 2; 3] !! j = Some (Z.of_nat j)) as Hid
      by (by destruct j as [|[|[|[|j]]]]; [..|lia]).
    assert ((M ++ [0; 1; 2; 3]) !! (n + j)%nat = Some (Z.of_nat j)) as Hl
      by (by rewrite lookup_app_r, Nat.add_comm, Nat.add_sub by lia).
    apply (insertps_overwrite_lookup Imm) in Hl.
    rewrite Heq, lookup_app_r, Nat.add_comm, Nat.add_sub in Hl by lia.
    rewrite <- insertps_overwrite_fresh in Hl.
    rewrite (insertps_overwrite_lookup Imm _ _ _ Hid) in Hl.
    injection Hl as Hl. rewrite (Nat.add_comm j n) in Hl. subst W; simpl.
    destruct (Z.testbit (Z.land Imm 15) (Z.of_nat (n + j))); [by left|].
    destruct (Z.eqb_spec (Z.of_nat (n + j)) (Z.land (Z.shiftr Imm 4) 3));
      [by right|].
    exfalso. destruct HW as [HW|HW].
    - rewrite HW in Hl. unfold SM_SentinelZero in Hl. lia.
    - destruct (Z.testbit (Z.land Imm 15) (Z.of_nat j));
        [unfold SM_SentinelZero in Hl; lia|].
      destruct (Z.eqb_spec (Z.of_nat j) (Z.land (Z.shiftr Imm 4) 3)); lia. }
  assert (forall (t j : nat), (4 <= j + t)%nat -> W j -> False) as Hnone.
  { induction t as [|t IH]; intros j Hj HW.
    - destruct HW as [HW|HW]; [|lia].
      rewrite land_15_high_bits in HW by lia. done.
    - destruct (decide (j < 4)%nat) as [Hlt|Hge].
      + apply (IH (n + j)%nat); [lia|]. by apply Hstep.
      + destruct HW as [HW|HW]; [|lia].
        rewrite land_15_high_bits in HW by lia. done. }
  apply (Hnone 4%nat (Z.to_nat (Z.land (Z.shiftr Imm 4) 3))); [lia|].
  right. lia.
Qed.

Lemma appends_only_appends (f : mask -> result mask) :
  appends f -> only_appends f.
Proof.
  intros Hf M. pose proof (Hf M []) as HM.
  unfold frame, mask_framed in HM. rewrite app_nil_r in HM. rewrite HM.
  by destruct (f []).
Qed.

(** C10 (amended). Every decoder but the insert-lane decoder only appends
    to the container it is handed: the entries held on entry come back
    unchanged,
    followed by what the decoder produces on an empty container.  The
    insert-lane decoder pushes four entries and then writes through the
    absolute positions [CountD] and [0..3] of the container: on an empty
    container this gives the insert-lane mask, on a non-empty one the result
    is never the old entries followed by that mask.  The entry at absolute
    position [k], old or fresh, becomes the sentinel when bit [k] of [ZMask]
    is set, else [4 + CountS] when [k] is [CountD], and is kept otherwise.
    With four or more old entries the writes all land in the old entries
    while the fresh ones stay [0; 1; 2; 3]; with one to three old entries
    they can land on fresh entries only: with no bit of [ZMask] set and
    [CountD] at or past the number of old entries every old entry comes back
    unchanged. *)
Theorem C10_append_only_except_insertps :
  (forall NElts, only_appends (DecodeMOVHLPSMask NElts))
  /\ (forall NElts, only_appends (DecodeMOVLHPSMask NElts))
  /\ (forall fuel VT Imm, only_appends (DecodePALIGNRMask fuel VT Imm))
  /\ (forall fuel VT Imm, only_appends (DecodePSHUFMask fuel VT Imm))
  /\ (forall fuel VT Imm, only_appends (DecodePSHUFHWMask fuel VT Imm))
  /\ (forall fuel VT Imm, only_appends (DecodePSHUFLWMask fuel VT Imm))
  /\ (forall fuel VT Imm, only_appends (DecodeSHUFPMask fuel VT Imm))
  /\ (forall fuel VT, only_appends (DecodeUNPCKHMask fuel VT))
  /\ (forall fuel VT, only_appends (DecodeUNPCKLMask fuel VT))
  /\ (forall VT Imm, only_appends (DecodeVPERM2X128Mask VT Imm))
  /\ (forall C, only_appends (DecodePSHUFBMask_Constant C))
  /\ (forall RawMask, only_appends (DecodePSHUFBMask_Raw RawMask))
  /\ (forall VT Imm, only_appends (DecodeBLENDMask VT Imm))
  /\ (forall Imm, only_appends (DecodeVPERMMask Imm))
  /\ (forall Imm M,
        DecodeINSERTPSMask Imm M
        = Ok (insertps_overwrite Imm (M ++ [0; 1; 2; 3])))
  /\ (forall Imm, DecodeINSERTPSMask Imm [] = Ok (insertps_mask Imm))
  /\ (forall Imm M,
        M <> [] -> DecodeINSERTPSMask Imm M <> Ok (M ++ insertps_mask Imm))
  /\ (forall Imm M (k : nat) x,
        (M ++ [0; 1; 2; 3]) !! k = Some x ->
        exists m, DecodeINSERTPSMask Imm M = Ok m
          /\ m !! k
             = Some (if Z.testbit (Z.land Imm 15) (Z.of_nat k)
                     then SM_SentinelZero
                     else if Z.of_nat k =? Z.land (Z.shiftr Imm 4) 3
                          then 4 + Z.land (Z.shiftr Imm 6) 3 else x))
  /\ (forall Imm M,
        (4 <= length M)%nat ->
        DecodeINSERTPSMask Imm M
        = Ok (insertps_overwrite Imm M ++ [0; 1; 2; 3]))
  /\ (forall Imm M,
        Z.land Imm 15 = 0 ->
        Z.of_nat (length M) <= Z.land (Z.shiftr Imm 4) 3 ->
        DecodeINSERTPSMask Imm M
        = Ok (M ++ <[(Z.to_nat (Z.land (Z.shiftr Imm 4) 3) - length M)%nat
                       := 4 + Z.land (Z.shiftr Imm 6) 3]> [0; 1; 2; 3]))
  /\ ~ only_appends (DecodeINSERTPSMask 0).
Proof.
  repeat split; intros; try (apply appends_only_appends).
  - apply DecodeMOVHLPSMask_appends.
  - apply DecodeMOVLHPSMask_appends.
  - apply DecodePALIGNRMask_appends.
  - apply DecodePSHUFMask_appends.
  - apply DecodePSHUFHWMask_appends.
  - apply DecodePSHUFLWMask_appends.
  - apply DecodeSHUFPMask_appends.
  - apply DecodeUNPCKHMask_appends.
  - apply DecodeUNPCKLMask_appends.
  - apply DecodeVPERM2X128Mask_appends.
  - apply DecodePSHUFBMask_Constant_appends.
  - apply DecodePSHUFBMask_Raw_appends.
  - apply DecodeBLENDMask_appends.
  - apply DecodeVPERMMask_appends.
  - apply DecodeINSERTPSMask_overwrite.
  - by rewrite DecodeINSERTPSMask_overwrite.
  - by apply DecodeINSERTPSMask_needs_empty.
  - eexists. split; [apply DecodeINSERTPSMask_overwrite|].
    by apply insertps_overwrite_lookup.
  - rewrite DecodeINSERTPSMask_overwrite. f_equal.
    by apply insertps_overwrite_long.
  - by apply DecodeINSERTPSMask_short_container.
  - intros Happ. specialize (Happ [7]). vm_compute in Happ. discriminate.
Qed.

Lemma C10_append_only_witness :
  [7] <> []
  /\ DecodeINSERTPSMask 0 [7] <> Ok ([7] ++ insertps_mask 0)
  /\ DecodeINSERTPSMask 0 [7] = Ok [4; 0; 1; 2; 3]
  /\ DecodeVPERMMask 0x1B [7] = Ok [7; 3; 2; 1; 0]
  /\ Z.land 0x10 15 = 0
  /\ Z.of_nat (length [7]) <= Z.land (Z.shiftr 0x10 4) 3
  /\ DecodeINSERTPSMask 0x10 [7] = Ok [7; 4; 1; 2; 3].
Proof.
  assert ([7] <> ([] : mask)) as Hne by discriminate.
  assert (Z.land 0x10 15 = 0) as HZ by reflexivity.
  assert (Z.of_nat (length [7]) <= Z.land (Z.shiftr 0x10 4) 3) as HD
    by (vm_compute; discriminate).
  destruct C10_append_only_except_insertps
    as (_ & _ & _ & _ & _ & _ & _ & _ & _ & _ & _ & _ & _ & Hvperm
        & Hwrite & _ & Hneeds & _ & _ & Hshort & _).
  split; [exact Hne|]. split; [exact (Hneeds 0 [7] Hne)|].
  split; [exact (Hwrite 0 [7])|]. split; [exact (Hvperm 0x1B [7])|].
  split; [exact HZ|]. split; [exact HD|].
  exact (Hshort 0x10 [7] HZ HD).
Defined.

(** C10 as stated fails on a container of one to three entries: with the
    immediate [0x10] on the container [[7]] the destination write goes to
    absolute position 1, which holds the first fresh entry; the old entry 7
    is not modified and the fresh entries are. *)
Lemma C10_insertps_short_container_counterexample :
  DecodeINSERTPSMask 0x10 [7] = Ok [7; 4; 1; 2; 3]
  /\ take 1 [7; 4; 1; 2; 3] = [7]
  /\ drop 1 [7; 4; 1; 2; 3] <> [0; 1; 2; 3].
Proof. repeat split; try reflexivity. discriminate. Qed.

(** ** Loops that carry a value along with the mask *)

(** Round [j] of the loop runs on the value [val j] of the loop variable,
    starts with the carried value [st j], leaves [st (j + 1)] and pushes
    [g j]. *)
Lemma foldM_push_indexed (val st : Z -> Z) (g : Z -> list Z)
    (body : Z -> Z * list Z -> result (Z * list Z)) (n : nat) :
  forall (a : Z) (m : list Z),
  (forall j m, a <= j < a + Z.of_nat n ->
     body (val j) (st j, m) = Ok (st (j + 1), m ++ g j)) ->
  foldM body (val <$> seqZ a (Z.of_nat n)) (st a, m)
  = Ok (st (a + Z.of_nat n), m ++ (seqZ a (Z.of_nat n) ≫= g)).
Proof.
  induction n as [|n IH]; intros a m Hbody.
  - simpl. rewrite Z.add_0_r, app_nil_r. done.
  - rewrite seqZ_cons by lia. cbn [fmap list_fmap foldM].
    rewrite Hbody by lia. cbn [mbind result_bind].
    replace (Z.pred (Z.of_nat (S n))) with (Z.of_nat n) by lia.
    change (Z.succ a) with (a + 1).
    rewrite IH by (intros; apply Hbody; lia).
    rewrite bind_cons, <- app_assoc. do 3 f_equal. lia.
Qed.

Lemma foldM_push_mapped (val : Z -> Z) (g : Z -> list Z)
    (body : Z -> list Z -> result (list Z)) (vals : list Z) (m : list Z) :
  (forall j m, j ∈ vals -> body (val j) m = Ok (m ++ g j)) ->
  foldM body (val <$> vals) m = Ok (m ++ (vals ≫= g)).
Proof.
  revert m; induction vals as [|j vals IH]; intros m Hbody; simpl.
  - by rewrite app_nil_r.
  - rewrite Hbody by left. simpl.
    rewrite IH by (intros; apply Hbody; by right).
    by rewrite <- app_assoc.
Qed.

(** ** Lane geometry *)

Lemma whole_lanes_geometry VT :
  whole_lanes VT ->
  1 <= NumLaneElts VT
  /\ getVectorNumElements VT = NumLanes VT * NumLaneElts VT.
Proof.
  intros (Hlanes & Hdiv & Hpos & Hbound). unfold NumLaneElts.
  pose proof (Z.div_mod (getVectorNumElements VT) (NumLanes VT) ltac:(lia))
    as Hdm.
  rewrite Hdiv, Z.add_0_r in Hdm. split; [|done]. nia.
Qed.

Lemma udiv_lanes VT :
  1 <= NumLanes VT ->
  udiv (getVectorNumElements VT) (NumLanes VT) = Ok (NumLaneElts VT).
Proof.
  intros Hlanes. unfold udiv.
  by destruct (Z.eqb_spec (NumLanes VT) 0) as [|_]; [lia|].
Qed.

(** ** The byte-rotate-concatenate decoder *)

Lemma DecodePALIGNRMask_closed (fuel : nat) VT Imm M :
  whole_lanes VT ->
  0 <= Imm * (getVectorElementSizeInBits VT / 8) < 2 ^ 30 ->
  (Z.to_nat (NumLanes VT) <= fuel)%nat ->
  DecodePALIGNRMask fuel VT Imm M = Ok (M ++ palignr_mask VT Imm).
Proof.
  intros Hwl HOff Hfuel.
  destruct (whole_lanes_geometry VT Hwl) as [HL HN].
  destruct Hwl as (Hlanes & _ & Hpos & Hbound).
  unfold DecodePALIGNRMask, palignr_mask. cbv zeta.
  fold (NumLanes VT). unfold udiv.
  destruct (Z.eqb_spec (NumLanes VT) 0) as [|_]; [lia|].
  cbn [mbind result_bind]. fold (NumLaneElts VT).
  set (L := NumLaneElts VT) in *. set (N := getVectorNumElements VT) in *.
  set (Off := Imm * (getVectorElementSizeInBits VT / 8)) in *.
  rewrite umul_small by (fold Off; lia). fold Off.
  rewrite HN at 1.
  rewrite for_ne_stride_fold by (try done; lia).
  apply foldM_push_mapped. intros k m Hk.
  apply elem_of_seqZ in Hk.
  rewrite for_range_fold by lia.
  rewrite Z.sub_0_r. apply foldM_push. intros i m' Hi.
  apply elem_of_seqZ in Hi. f_equal. unfold push_back. do 2 f_equal.
  assert (L <= N) by nia. assert (k * L + L <= N) by nia.
  assert (0 <= k * L) by nia.
  rewrite (uadd_small i Off) by lia.
  rewrite (usub_small N L) by lia.
  destruct (Z.leb_spec L (i + Off)).
  - rewrite (uadd_small (i + Off)) by lia.
    rewrite uadd_small by lia. apply to_int_small. lia.
  - rewrite uadd_small by lia. apply to_int_small. lia.
Qed.

(** The closed form for every immediate, wrap-around included. *)
Lemma DecodePALIGNRMask_wrapping (fuel : nat) VT Imm M :
  whole_lanes VT ->
  (Z.to_nat (NumLanes VT) <= fuel)%nat ->
  DecodePALIGNRMask fuel VT Imm M = Ok (M ++ palignr_mask_wrapping VT Imm).
Proof.
  intros Hwl Hfuel.
  destruct (whole_lanes_geometry VT Hwl) as [HL HN].
  destruct Hwl as (Hlanes & _ & Hpos & Hbound).
  unfold DecodePALIGNRMask, palignr_mask_wrapping. cbv zeta.
  fold (NumLanes VT). unfold udiv.
  destruct (Z.eqb_spec (NumLanes VT) 0) as [|_]; [lia|].
  cbn [mbind result_bind]. fold (NumLaneElts VT).
  set (L := NumLaneElts VT) in *. set (N := getVectorNumElements VT) in *.
  rewrite HN at 1.
  rewrite for_ne_stride_fold by (try done; lia).
  apply foldM_push_mapped. intros k m Hk.
  apply elem_of_seqZ in Hk.
  rewrite for_range_fold by lia.
  rewrite Z.sub_0_r. apply foldM_push. intros i m' Hi.
  assert (L <= N) by nia.
  rewrite (usub_small N L) by lia. reflexivity.
Qed.

(** While the offset stays below 2^30 no sum wraps. *)
Lemma palignr_mask_wrapping_small VT Imm :
  whole_lanes VT ->
  0 <= Imm * (getVectorElementSizeInBits VT / 8) < 2 ^ 30 ->
  palignr_mask_wrapping VT Imm = palignr_mask VT Imm.
Proof.
  intros Hwl HOff.
  pose proof (DecodePALIGNRMask_wrapping (Z.to_nat (NumLanes VT)) VT Imm []
                Hwl ltac:(lia)) as Hwrap.
  rewrite DecodePALIGNRMask_closed in Hwrap by (done || lia).
  by injection Hwrap as <-.
Qed.

(** C4 (amended). On a vector of whole 128-bit lanes and for every
    immediate the byte-rotate-concatenate decoder computes
    [Offset = Imm * elementByteSize] and, in each lane independently, gives
    position [i] the source index [i + Offset] (the offset is added as it
    is, it is not divided by the element size); an index that reaches the
    lane width wraps by subtracting the lane width and adding the global
    element count, and the base of the lane is added back; the product and
    the sums are those of 32-bit [unsigned] values, and the entry is stored
    as an [int].  While the offset is below 2^30 none of them wraps and the
    entries are the plain sums.  On byte vectors the plain sums are the
    mask the specification words describe. *)
Theorem C4_palignr_mask_amended (fuel : nat) (VT : MVT) (Imm : Z) :
  whole_lanes VT ->
  (Z.to_nat (NumLanes VT) <= fuel)%nat ->
  DecodePALIGNRMask fuel VT Imm [] = Ok (palignr_mask_wrapping VT Imm)
  /\ (0 <= Imm * (getVectorElementSizeInBits VT / 8) < 2 ^ 30 ->
      DecodePALIGNRMask fuel VT Imm [] = Ok (palignr_mask VT Imm))
  /\ (getVectorElementSizeInBits VT = 8 ->
      palignr_mask VT Imm = palignr_mask_as_specified 1 VT Imm).
Proof.
  intros Hwl Hfuel. split; [|split].
  - by rewrite DecodePALIGNRMask_wrapping.
  - intros HOff. by rewrite DecodePALIGNRMask_closed.
  - intros H8. unfold palignr_mask, palignr_mask_as_specified. cbv zeta.
    rewrite H8. change (8 / 8) with 1. rewrite Z.mul_1_r, Z.div_1_r.
    apply list_bind_ext; [intros k|done].
    apply list_bind_ext; [intros i|done].
    destruct (_ <=? _); do 2 f_equal; lia.
Qed.

Lemma C4_palignr_mask_witness :
  whole_lanes v32i8
  /\ (Z.to_nat (NumLanes v32i8) <= 2)%nat
  /\ 0 <= 4 * (getVectorElementSizeInBits v32i8 / 8) < 2 ^ 30
  /\ DecodePALIGNRMask 2 v32i8 4 []
     = Ok [4; 5; 6; 7; 8; 9; 10; 11; 12; 13; 14; 15; 32; 33; 34; 35;
           20; 21; 22; 23; 24; 25; 26; 27; 28; 29; 30; 31; 48; 49; 50; 51]
  /\ DecodePALIGNRMask 2 v32i8 0xFFFFFFFF []
     = Ok [15; 0; 1; 2; 3; 4; 5; 6; 7; 8; 9; 10; 11; 12; 13; 14;
           31; 16; 17; 18; 19; 20; 21; 22; 23; 24; 25; 26; 27; 28; 29; 30].
Proof.
  assert (whole_lanes v32i8) as H1 by (vm_compute; intuition discriminate).
  assert (Z.to_nat (NumLanes v32i8) <= 2)%nat as H2 by (vm_compute; lia).
  assert (0 <= 4 * (getVectorElementSizeInBits v32i8 / 8) < 2 ^ 30) as H3
    by (vm_compute; intuition discriminate).
  split; [exact H1|]. split; [exact H2|]. split; [exact H3|]. split.
  - exact (proj1 (proj2 (C4_palignr_mask_amended 2 v32i8 4 H1 H2)) H3).
  - exact (proj1 (C4_palignr_mask_amended 2 v32i8 0xFFFFFFFF H1 H2)).
Defined.

(** C4 as stated fails on word vectors: with [v8i16] and [Imm = 1] the
    offset is 2 and position [i] reads [i + 2], neither [i + 2/2] (element
    size in bytes) nor [i + 2/16] (element size in bits). *)
Lemma C4_palignr_offset_counterexample :
  DecodePALIGNRMask 1 v8i16 1 [] = Ok [2; 3; 4; 5; 6; 7; 8; 9]
  /\ palignr_mask_as_specified 2 v8i16 1 = [1; 2; 3; 4; 5; 6; 7; 8]
  /\ palignr_mask_as_specified 16 v8i16 1 = [0; 1; 2; 3; 4; 5; 6; 7]
  /\ DecodePALIGNRMask 1 v8i16 1 [] <> Ok (palignr_mask_as_specified 2 v8i16 1)
  /\ DecodePALIGNRMask 1 v8i16 1 []
     <> Ok (palignr_mask_as_specified 16 v8i16 1).
Proof. repeat split; try reflexivity; vm_compute; discriminate. Qed.

(** ** The permute-by-immediate decoders *)

Lemma div_pow_add x L a b :
  0 < L -> 0 <= a -> 0 <= b -> x / L ^ a / L ^ b = x / L ^ (a + b).
Proof.
  intros HL Ha Hb. rewrite Z.pow_add_r by done.
  pose proof (Z.pow_pos_nonneg L a). pose proof (Z.pow_pos_nonneg L b).
  rewrite Z.div_div by lia. done.
Qed.

(** One lane of digits: [n] rounds of [NewImm % L] and [NewImm /= L]. *)
Lemma digits_loop (L bias : Z) (v : Z -> Z) (N : Z) (n : Z) (m : list Z) :
  0 < L -> 0 <= n ->
  (forall r, 0 <= r < L -> v r = r + bias) ->
  foldM (fun (i : Z) '(NewImm, ShuffleMask) =>
          r ← urem NewImm L;
          let ShuffleMask := push_back (v r) ShuffleMask in
          NewImm ← udiv NewImm L;
          Ok (NewImm, ShuffleMask)) (seqZ 0 n) (N, m)
  = Ok (N / L ^ n, m ++ (seqZ 0 n ≫= fun i => [(N / L ^ i) mod L + bias])).
Proof.
  intros HL Hn Hv.
  rewrite <- (list_fmap_id (seqZ 0 n)) at 1.
  rewrite <- (Z2Nat.id n) by done.
  pose proof (fun body => foldM_push_indexed id (fun i => N / L ^ i)
                (fun i => [(N / L ^ i) mod L + bias]) body (Z.to_nat n) 0 m)
    as Hfold.
  cbv beta in Hfold. rewrite Z.pow_0_r, Z.div_1_r, Z.add_0_l in Hfold.
  apply Hfold. clear Hfold. intros j m' Hj. unfold id, urem, udiv.
  destruct (Z.eqb_spec L 0) as [|_]; [lia|]. cbn [mbind result_bind].
  f_equal. f_equal.
  - rewrite <- (Z.pow_1_r L) at 2. apply div_pow_add; lia.
  - unfold push_back. do 2 f_equal.
    apply Hv, Z.mod_pos_bound, HL.
Qed.

Lemma to_int_uadd r bias :
  0 <= r -> 0 <= bias -> r + bias < 2 ^ 31 -> to_int (uadd r bias) = r + bias.
Proof. intros. rewrite uadd_small by lia. apply to_int_small. lia. Qed.

Lemma DecodePSHUFMask_closed (fuel : nat) VT Imm M :
  whole_lanes VT ->
  (Z.to_nat (NumLanes VT) <= fuel)%nat ->
  DecodePSHUFMask fuel VT Imm M = Ok (M ++ pshuf_mask VT Imm).
Proof.
  intros Hwl Hfuel.
  destruct (whole_lanes_geometry VT Hwl) as [HL HN].
  destruct Hwl as (Hlanes & _ & Hpos & Hbound).
  unfold DecodePSHUFMask, pshuf_mask. cbv zeta.
  fold (NumLanes VT). rewrite udiv_lanes by lia.
  cbn [mbind result_bind].
  set (L := NumLaneElts VT) in *. set (N := getVectorNumElements VT) in *.
  set (K := NumLanes VT) in *.
  rewrite HN at 1.
  rewrite for_ne_stride_fold by (try done; lia).
  set (st := fun k => if L =? 4 then Imm else Imm / L ^ (k * L)).
  assert (Imm = st 0) as HImm.
  { subst st. cbv beta. rewrite Z.mul_0_l, Z.pow_0_r, Z.div_1_r.
    by destruct (L =? 4). }
  rewrite HImm at 1. rewrite <- (Z2Nat.id K) by lia.
  rewrite (foldM_push_indexed (fun k => k * L) st
             (fun k => i ← seqZ 0 L;
                       [(Imm / L ^ (if L =? 4 then i else k * L + i)) mod L
                        + k * L])).
  { done. }
  intros k m Hk. rewrite Z2Nat.id in Hk by lia.
  assert (0 <= k * L) by nia. assert (k * L + L <= N) by nia.
  rewrite for_range_fold by lia. rewrite Z.sub_0_r.
  rewrite (digits_loop L (k * L) (fun r => to_int (uadd r (k * L))))
    by (try lia; intros; apply to_int_uadd; lia).
  cbn [mbind result_bind].
  f_equal. f_equal.
  - subst st. cbv beta. destruct (L =? 4); [done|].
    rewrite div_pow_add by lia. do 2 f_equal. lia.
  - f_equal. apply Forall_bind_ext, Forall_seqZ. intros i Hi.
    subst st. cbv beta. destruct (L =? 4); [done|].
    by rewrite div_pow_add by lia.
Qed.

Lemma DecodeSHUFPMask_closed (fuel : nat) VT Imm M :
  whole_lanes VT ->
  (Z.to_nat (NumLanes VT) <= fuel)%nat -> (2 <= fuel)%nat ->
  DecodeSHUFPMask fuel VT Imm M = Ok (M ++ shufp_mask VT Imm).
Proof.
  intros Hwl Hfuel Hfuel2.
  destruct (whole_lanes_geometry VT Hwl) as [HL HN].
  destruct Hwl as (Hlanes & _ & Hpos & Hbound).
  unfold DecodeSHUFPMask, shufp_mask. cbv zeta.
  fold (NumLanes VT). rewrite udiv_lanes by lia.
  cbn [mbind result_bind].
  set (L := NumLaneElts VT) in *. set (N := getVectorNumElements VT) in *.
  set (K := NumLanes VT) in *.
  assert (0 <= L / 2) as HH by (apply Z.div_pos; lia).
  assert (2 * (L / 2) <= L) as HH2 by (apply Z.mul_div_le; lia).
  rewrite HN at 1.
  rewrite for_ne_stride_fold by (try done; lia).
  set (st := fun k => if L =? 4 then Imm else Imm / L ^ (k * (2 * (L / 2)))).
  assert (Imm = st 0) as HImm.
  { subst st. cbv beta. rewrite Z.mul_0_l, Z.pow_0_r, Z.div_1_r.
    by destruct (L =? 4). }
  rewrite HImm at 1. rewrite <- (Z2Nat.id K) by lia.
  rewrite (foldM_push_indexed (fun k => k * L) st
    (fun k => h ← seqZ 0 2; i ← seqZ 0 (L / 2);
       [(Imm / L ^ (if L =? 4 then h * (L / 2) + i
                    else k * (2 * (L / 2)) + h * (L / 2) + i)) mod L
        + h * N + k * L])).
  { done. }
  intros k m Hk. rewrite Z2Nat.id in Hk by lia.
  assert (0 <= k * L) by nia. assert (k * L + L <= N) by nia.
  rewrite umul_small by lia. rewrite (Z.mul_comm N 2).
  rewrite for_ne_stride_fold by (try done; lia).
  pose proof (fun body => foldM_push_indexed (fun h => h * N)
    (fun h => st k / L ^ (h * (L / 2)))
    (fun h => i ← seqZ 0 (L / 2);
       [(st k / L ^ (h * (L / 2)) / L ^ i) mod L + (h * N + k * L)])
    body 2 0 m) as Hfold.
  cbv beta in Hfold. rewrite Z.mul_0_l, Z.pow_0_r, Z.div_1_r in Hfold.
  change (Z.of_nat 2) with 2 in Hfold. change (0 + 2) with 2 in Hfold.
  rewrite Hfold; clear Hfold.
  - cbn [mbind result_bind]. f_equal. f_equal.
    + subst st. cbv beta.
      destruct (L =? 4); [done|].
      rewrite div_pow_add by lia. do 2 f_equal. lia.
    + f_equal.
      apply Forall_bind_ext, Forall_seqZ. intros h Hh.
      apply Forall_bind_ext, Forall_seqZ. intros i Hi.
      subst st. cbv beta. rewrite Z.add_assoc.
      destruct (L =? 4).
      * by rewrite div_pow_add by nia.
      * rewrite !div_pow_add by nia. by rewrite Z.add_assoc.
  - intros h m' Hh.
    rewrite for_range_fold by lia. rewrite Z.sub_0_r.
    rewrite (digits_loop L (h * N + k * L)
               (fun r => to_int (uadd (uadd r (h * N)) (k * L)))).
    + f_equal. f_equal.
      rewrite div_pow_add by nia. do 2 f_equal. lia.
    + lia.
    + lia.
    + intros r Hr. rewrite (uadd_small r) by nia.
      rewrite uadd_small by nia.
      rewrite to_int_small by nia. lia.
Qed.

(** C8. On a vector of whole 128-bit lanes the generic permute-by-immediate
    decoder and its shuffle-and-pack sibling write into each position of
    each lane one base-[NumLaneElts] digit of the immediate, offset by the
    base of the lane.  With exactly four elements to the lane the digits of
    every lane are counted from the start of the immediate (the immediate
    is reloaded for every lane), so every lane carries the pattern of lane
    0 offset by its base; with any other lane width lane [k] continues with
    the digits that the lanes before it have left (no reload). *)
Theorem C8_immediate_reload_only_for_four_element_lanes
    (fuel : nat) (VT : MVT) (Imm : Z) :
  whole_lanes VT ->
  (Z.to_nat (NumLanes VT) <= fuel)%nat -> (2 <= fuel)%nat ->
  DecodePSHUFMask fuel VT Imm [] = Ok (pshuf_mask VT Imm)
  /\ DecodeSHUFPMask fuel VT Imm [] = Ok (shufp_mask VT Imm)
  /\ (NumLaneElts VT = 4 ->
      pshuf_mask VT Imm
      = (k ← seqZ 0 (NumLanes VT);
         (fun x => x + k * 4) <$>
           [Imm mod 4; (Imm / 4) mod 4; (Imm / 16) mod 4; (Imm / 64) mod 4]))
  /\ (NumLaneElts VT = 4 ->
      shufp_mask VT Imm
      = (k ← seqZ 0 (NumLanes VT);
         (fun x => x + k * 4) <$>
           [Imm mod 4; (Imm / 4) mod 4;
            (Imm / 16) mod 4 + getVectorNumElements VT;
            (Imm / 64) mod 4 + getVectorNumElements VT]))
  /\ (NumLaneElts VT <> 4 ->
      pshuf_mask VT Imm
      = (k ← seqZ 0 (NumLanes VT);
         i ← seqZ 0 (NumLaneElts VT);
         [(Imm / NumLaneElts VT ^ (k * NumLaneElts VT + i))
            mod NumLaneElts VT + k * NumLaneElts VT])).
Proof.
  intros Hwl Hfuel Hfuel2. split; [|split; [|split; [|split]]].
  - by rewrite DecodePSHUFMask_closed.
  - by rewrite DecodeSHUFPMask_closed.
  - intros H4. unfold pshuf_mask. rewrite H4. cbv zeta.
    apply list_bind_ext; [intros k|done].
    change (seqZ 0 4) with [0; 1; 2; 3].
    cbn -[Z.div Z.modulo Z.mul Z.add].
    by rewrite Z.div_1_r.
  - intros H4. unfold shufp_mask. rewrite H4. cbv zeta.
    apply list_bind_ext; [intros k|done].
    change (seqZ 0 2) with [0; 1]. change (seqZ 0 (4 / 2)) with [0; 1].
    cbn -[Z.div Z.modulo Z.mul Z.add].
    change (4 ^ (0 * (4 / 2) + 1)) with 4.
    change (4 ^ (1 * (4 / 2) + 0)) with 16.
    change (4 ^ (1 * (4 / 2) + 1)) with 64.
    rewrite Z.div_1_r. repeat f_equal; lia.
  - intros H4. unfold pshuf_mask. cbv zeta.
    destruct (Z.eqb_spec (NumLaneElts VT) 4); [done|]. done.
Qed.

Lemma C8_immediate_reload_witness :
  whole_lanes v8i32 /\ whole_lanes v4i64
  /\ DecodePSHUFMask 2 v8i32 0x1B [] = Ok [3; 2; 1; 0; 7; 6; 5; 4]
  /\ DecodePSHUFMask 2 v4i64 6 [] = Ok [0; 1; 3; 2]
  /\ DecodeSHUFPMask 2 v8i32 0x1B [] = Ok [3; 2; 9; 8; 7; 6; 13; 12].
Proof.
  assert (whole_lanes v8i32) as H1 by (vm_compute; intuition discriminate).
  assert (whole_lanes v4i64) as H2 by (vm_compute; intuition discriminate).
  assert (Z.to_nat (NumLanes v8i32) <= 2)%nat as H3 by (vm_compute; lia).
  assert (Z.to_nat (NumLanes v4i64) <= 2)%nat as H4 by (vm_compute; lia).
  assert (2 <= 2)%nat as H5 by lia.
  split; [exact H1|]. split; [exact H2|].
  pose proof (C8_immediate_reload_only_for_four_element_lanes
                2 v8i32 0x1B H1 H3 H5) as (Ha & Hb & _).
  pose proof (C8_immediate_reload_only_for_four_element_lanes
                2 v4i64 6 H2 H4 H5) as (Hc & _).
  split; [exact Ha|]. split; [exact Hc|exact Hb].
Defined.

(** ** Lane geometry on vectors narrower than 128 bits *)

Lemma no_lanes_PALIGNR fuel VT Imm M :
  NumLanes VT = 0 -> DecodePALIGNRMask fuel VT Imm M = Err DivisionByZero.
Proof.
  intros H0. unfold DecodePALIGNRMask. cbv zeta. fold (NumLanes VT).
  by rewrite H0.
Qed.

Lemma no_lanes_PSHUF fuel VT Imm M :
  NumLanes VT = 0 -> DecodePSHUFMask fuel VT Imm M = Err DivisionByZero.
Proof.
  intros H0. unfold DecodePSHUFMask. cbv zeta. fold (NumLanes VT).
  by rewrite H0.
Qed.

Lemma no_lanes_SHUFP fuel VT Imm M :
  NumLanes VT = 0 -> DecodeSHUFPMask fuel VT Imm M = Err DivisionByZero.
Proof.
  intros H0. unfold DecodeSHUFPMask. cbv zeta. fold (NumLanes VT).
  by rewrite H0.
Qed.

(** C9 (the code at the failing inputs). The unpack decoders derive the
    lane count as [max 1 (TotalBits / 128)] and decode 64-bit vectors as
    one lane; the align, permute-by-immediate and shuffle-and-pack
    decoders use [TotalBits / 128] as it is, which is 0 on a 64-bit
    vector, and divide the element count by it. *)
Theorem C9_lane_count_of_64_bit_vectors :
  (forall VT, 0 <= getSizeInBits VT ->
     (if NumLanes VT =? 0 then 1 else NumLanes VT) = Z.max 1 (NumLanes VT))
  /\ DecodeUNPCKHMask 1 v8i8 [] = Ok [4; 12; 5; 13; 6; 14; 7; 15]
  /\ DecodeUNPCKLMask 1 v8i8 [] = Ok [0; 8; 1; 9; 2; 10; 3; 11]
  /\ NumLanes v8i8 = 0
  /\ (forall fuel Imm M,
        DecodePALIGNRMask fuel v8i8 Imm M = Err DivisionByZero)
  /\ (forall fuel Imm M,
        DecodePSHUFMask fuel v4i16 Imm M = Err DivisionByZero)
  /\ (forall fuel Imm M,
        DecodeSHUFPMask fuel v2i32 Imm M = Err DivisionByZero).
Proof.
  split; [|split; [reflexivity|split; [reflexivity|split; [reflexivity|]]]].
  2: { split; [|split]; intros.
       - by apply no_lanes_PALIGNR.
       - by apply no_lanes_PSHUF.
       - by apply no_lanes_SHUFP. }
  - intros VT Hsize.
    assert (0 <= NumLanes VT) by (apply Z.div_pos; lia).
    destruct (Z.eqb_spec (NumLanes VT) 0); lia.
Qed.

Lemma C9_lane_count_witness :
  0 <= getSizeInBits v8i8
  /\ (if NumLanes v8i8 =? 0 then 1 else NumLanes v8i8)
     = Z.max 1 (NumLanes v8i8).
Proof.
  assert (0 <= getSizeInBits v8i8) as H by (vm_compute; discriminate).
  split; [exact H|].
  exact (proj1 C9_lane_count_of_64_bit_vectors v8i8 H).
Defined.

(** ** The byte-table decoders *)

(** A loop that pushes one entry per round, or fails. *)
Lemma foldM_entries (g : Z -> result Z) (body : Z -> list Z -> result (list Z))
    (vals : list Z) :
  (forall i m, body i m = x ← g i; Ok (m ++ [x])) ->
  forall m m',
    foldM body vals m = Ok m' <->
    exists xs, m' = m ++ xs /\ Forall2 (fun i x => g i = Ok x) vals xs.
Proof.
  intros Hbody. induction vals as [|i vals IH]; intros m m'; simpl.
  - split.
    + intros [= <-]. exists []. by rewrite app_nil_r.
    + intros (xs & -> & Hxs). apply Forall2_nil_inv_l in Hxs as ->.
      by rewrite app_nil_r.
  - rewrite Hbody. split.
    + destruct (g i) as [x|err] eqn:Hg; simpl; [|done].
      intros Hfold. apply IH in Hfold as (xs & -> & Hxs).
      exists (x :: xs). split; [by rewrite <- app_assoc|by constructor].
    + intros (xs & -> & Hxs).
      apply Forall2_cons_inv_l in Hxs as (x & xs' & Hg & Hxs & ->).
      rewrite Hg. simpl. apply IH. exists xs'.
      split; [by rewrite <- app_assoc|done].
Qed.

Lemma byte_bit7_clear E :
  is_byte E -> Z.testbit E 7 = false -> Z.land E 127 = E /\ 0 <= E < 128.
Proof.
  intros [H0 H256] Hbit.
  assert (E < 128) as Hlt.
  { destruct (Z.lt_ge_cases E 128) as [|Hge]; [done|].
    rewrite Z.testbit_odd, Z.shiftr_div_pow2 in Hbit by lia.
    assert (E / 2 ^ 7 = 1) as Hq
      by (symmetry; apply (Z.div_unique _ _ _ (E - 128)); lia).
    by rewrite Hq in Hbit. }
  split; [|lia]. change 127 with (Z.ones 7).
  rewrite Z.land_ones by lia. apply Z.mod_small. lia.
Qed.

Lemma bit7_test E : (Z.land E (Z.shiftl 1 7) =? 0) = negb (Z.testbit E 7).
Proof. apply (land_pow2_eqb E 7). lia. Qed.

Lemma table_entry_spec (in_bounds : Z -> bool) (size i E x : Z) :
  is_byte E ->
  (forall y, 0 <= y < 2 ^ 31 -> in_bounds y = (y <? size)) ->
  table_entry in_bounds i E = Ok x <->
  x = pshufb_index i E /\ pshufb_in_bounds size i E.
Proof.
  intros HE Hok. unfold table_entry, pshufb_index, pshufb_in_bounds.
  rewrite bit7_test, negb_involutive. cbv zeta.
  destruct (Z.testbit E 7) eqn:Hbit.
  - split; [intros [= <-]; auto|intros [-> _]; done].
  - destruct (byte_bit7_clear E HE Hbit) as [-> HE7].
    set (Base := if i <? 16 then 0 else 16).
    assert (0 <= Base <= 16) by (subst Base; destruct (i <? 16); lia).
    assert (to_int (wrap64 (Base + E)) = E + Base) as ->.
    { unfold wrap64. rewrite Z.mod_small by lia.
      rewrite to_int_small by lia. lia. }
    rewrite Hok by lia.
    destruct (Z.ltb_spec (E + Base) size); simpl.
    + split; [intros [= <-]; auto|intros [-> _]; done].
    + split; [done|]. intros [_ [|]]; [done|lia].
Qed.

Lemma table_loop_spec (in_bounds : Z -> bool) (size : Z) (table : list Z)
    (m : list Z) :
  Forall is_byte table ->
  (forall y, 0 <= y < 2 ^ 31 -> in_bounds y = (y <? size)) ->
  foldM (fun i ShuffleMask =>
           x ← table_entry in_bounds i (nth (Z.to_nat i) table 0);
           Ok (ShuffleMask ++ [x]))
    (seqZ 0 (Z.of_nat (length table))) [] = Ok m
  <-> m = imap (fun i E => pshufb_index (Z.of_nat i) E) table
      /\ (forall (i : nat) E, table !! i = Some E ->
            pshufb_in_bounds size (Z.of_nat i) E).
Proof.
  intros Hbytes Hok.
  rewrite (foldM_entries
             (fun i => table_entry in_bounds i (nth (Z.to_nat i) table 0)))
    by done.
  assert (forall (i : nat) E x, table !! i = Some E ->
    table_entry in_bounds (Z.of_nat i) (nth (Z.to_nat (Z.of_nat i)) table 0)
      = Ok x <->
    x = pshufb_index (Z.of_nat i) E
    /\ pshufb_in_bounds size (Z.of_nat i) E) as Hentry.
  { intros i E x Hi. rewrite Nat2Z.id, nth_lookup, Hi. simpl.
    apply table_entry_spec; [|done].
    by eapply Forall_lookup_1. }
  split.
  - intros (xs & -> & Hxs). simpl.
    pose proof (Forall2_length _ _ _ Hxs) as Hlen.
    rewrite length_seqZ, Nat2Z.id in Hlen.
    split.
    + apply list_eq; intros i. rewrite list_lookup_imap.
      destruct (table !! i) as [E|] eqn:Hi; simpl.
      * assert (is_Some (xs !! i)) as [x Hx].
        { apply lookup_lt_is_Some. rewrite <- Hlen.
          by eapply lookup_lt_Some. }
        rewrite Hx. f_equal.
        eapply (Forall2_lookup_lr _ _ _ i (Z.of_nat i)) in Hxs; [|..|done].
        -- by apply (Hentry i E x Hi) in Hxs as [-> _].
        -- apply lookup_seqZ. split; [lia|].
           apply lookup_lt_Some in Hi. lia.
      * apply lookup_ge_None. rewrite <- Hlen. by apply lookup_ge_None.
    + intros i E Hi.
      assert (is_Some (xs !! i)) as [x Hx].
      { apply lookup_lt_is_Some. rewrite <- Hlen. by eapply lookup_lt_Some. }
      eapply (Forall2_lookup_lr _ _ _ i (Z.of_nat i)) in Hxs; [|..|done].
      * by apply (Hentry i E x Hi) in Hxs as [_ ?].
      * apply lookup_seqZ. split; [lia|]. apply lookup_lt_Some in Hi. lia.
  - intros [-> Hall]. eexists. split; [done|].
    apply Forall2_same_length_lookup_2.
    + by rewrite length_seqZ, Nat2Z.id, length_imap.
    + intros i j x Hj Hx. apply lookup_seqZ in Hj as [-> Hj].
      rewrite list_lookup_imap in Hx.
      destruct (table !! i) as [E|] eqn:Hi; [|done].
      injection Hx as <-. simpl. apply (Hentry i E); [done|].
      split; [done|]. by apply Hall.
Qed.

Lemma DecodePSHUFBMask_Raw_spec (RawMask : list Z) (m : list Z) :
  Forall is_byte RawMask ->
  DecodePSHUFBMask_Raw RawMask [] = Ok m <->
  m = imap (fun i E => pshufb_index (Z.of_nat i) E) RawMask
  /\ (forall (i : nat) E, RawMask !! i = Some E ->
        pshufb_in_bounds (Z.of_nat (length RawMask)) (Z.of_nat i) E).
Proof.
  intros Hbytes. unfold DecodePSHUFBMask_Raw. cbv zeta.
  rewrite for_lt_fold, Z.sub_0_r.
  rewrite <- (table_loop_spec
    (fun y => (0 <=? y) && (wrap32 y <? Z.of_nat (length RawMask)))); [|done|].
  - erewrite foldM_ext; [done|]. intros i m' _. unfold table_entry.
    destruct (negb _); [done|]. cbv zeta.
    by destruct (assert _) as [[]|].
  - intros y Hy. rewrite wrap32_small by lia.
    destruct (Z.leb_spec 0 y); [done|lia].
Qed.

Lemma DecodePSHUFBMask_Constant_spec (C : ConstantDataSequential)
    (m : list Z) :
  Forall is_byte (elements C) ->
  DecodePSHUFBMask_Constant C [] = Ok m <->
  supported_constant C
  /\ m = imap (fun i E => pshufb_index (Z.of_nat i) E) (elements C)
  /\ (forall (i : nat) E, elements C !! i = Some E ->
        pshufb_in_bounds (Z.of_nat (length (elements C))) (Z.of_nat i) E).
Proof.
  intros Hbytes. unfold DecodePSHUFBMask_Constant, supported_constant.
  cbv zeta. unfold getNumElements.
  set (NE := to_int (getTypeNumElements C)).
  destruct (isVectorTy C); simpl; [|split; [done|by intros [[? _] _]]].
  destruct (Z.eqb_spec (getVectorElementBits C) 8); simpl;
    [|split; [done|by intros [(_ & ? & _) _]]].
  assert ((NE =? 16) || (NE =? 32) = true <-> NE = 16 \/ NE = 32) as Hsize.
  { rewrite orb_true_iff, !Z.eqb_eq. done. }
  destruct ((NE =? 16) || (NE =? 32)); simpl;
    [|split; [done|intros [(_ & _ & HNE & _) _]; by apply Hsize in HNE]].
  assert (NE = 16 \/ NE = 32) as HNE by (by apply Hsize).
  assert (wrap32 NE = NE) as -> by (apply wrap32_small; lia).
  destruct (Z.eqb_spec NE (Z.of_nat (length (elements C)))) as [Hlen|Hlen];
    simpl; [|split; [done|by intros [(_ & _ & _ & ?) _]]].
  rewrite for_lt_fold, Z.sub_0_r. rewrite Hlen at 1.
  rewrite <- (table_loop_spec (fun y => (0 <=? y) && (y <? NE)));
    [|done|].
  - erewrite foldM_ext.
    + split; [intros Hm; split; [done|exact Hm]|intros [_ Hm]; exact Hm].
    + intros i m' _. unfold table_entry, getElementAsInteger.
      destruct (negb _); [done|]. cbv zeta.
      by destruct (assert _) as [[]|].
  - intros y Hy. rewrite <- Hlen.
    destruct (Z.leb_spec 0 y); [done|lia].
Qed.

Lemma pshufb_entry_at (table m : list Z) (i : nat) (E : Z) :
  m = imap (fun i E => pshufb_index (Z.of_nat i) E) table ->
  table !! i = Some E ->
  m !! i = Some (pshufb_index (Z.of_nat i) E)
  /\ (Z.testbit E 7 = true -> m !! i = Some SM_SentinelZero)
  /\ (Z.testbit E 7 = false ->
      m !! i = Some (Z.land E 127 + (if Z.of_nat i <? 16 then 0 else 16))).
Proof.
  intros -> Hi. rewrite list_lookup_imap, Hi. simpl. unfold pshufb_index.
  split; [done|]. split; intros ->; done.
Qed.


Lemma table_2_20_bytes : Forall is_byte table_2_20.
Proof. unfold table_2_20, is_byte. repeat (constructor; [lia|]). constructor. Defined.


Lemma pshufb_high_half_confined (RawMask m : list Z) (i : nat) (x : Z) :
  Forall is_byte RawMask -> length RawMask = 32%nat ->
  DecodePSHUFBMask_Raw RawMask [] = Ok m ->
  (16 <= i)%nat -> m !! i = Some x -> x <> SM_SentinelZero ->
  16 <= x < 32.
Proof.
  intros Hbytes Hlen Hm Hi Hx Hns.
  apply DecodePSHUFBMask_Raw_spec in Hm as [-> Hall]; [|done].
  rewrite list_lookup_imap in Hx.
  destruct (RawMask !! i) as [E|] eqn:HE; [|done]. injection Hx as <-.
  specialize (Hall i E HE). rewrite Hlen in Hall.
  unfold pshufb_in_bounds in Hall. unfold pshufb_index in *.
  destruct (Z.testbit E 7) eqn:Hbit; [done|].
  destruct (byte_bit7_clear E) as [HE7 ?];
    [by eapply Forall_lookup_1|done|].
  destruct (Z.ltb_spec (Z.of_nat i) 16); [lia|].
  destruct Hall as [|Hall]; [done|]. lia.
Qed.

(** C6 (the code at the failing input). In a 32-entry table the entry 20 at
    position 2 has bit 7 clear and passes the bounds assertion, which only
    compares the index with the table length: both decoders emit index 20
    at position 2, outside the half [0, 16) the position lies in. *)
Theorem C6_pshufb_low_half_not_confined :
  Forall is_byte table_2_20 /\ length table_2_20 = 32%nat
  /\ table_2_20 !! 2%nat = Some 20
  /\ (exists m, DecodePSHUFBMask_Raw table_2_20 [] = Ok m
        /\ m !! 2%nat = Some 20)
  /\ (exists m, DecodePSHUFBMask_Constant (mkCDS true 8 32 table_2_20) []
                = Ok m
        /\ m !! 2%nat = Some 20)
  /\ 20 <> SM_SentinelZero /\ ~ (0 <= 20 < 16).
Proof.
  split; [exact table_2_20_bytes|]. split; [reflexivity|].
  split; [reflexivity|].
  split; [eexists; split; reflexivity|].
  split; [eexists; split; reflexivity|].
  split; [discriminate|lia].
Qed.

(** ** The masks of the remaining decoders *)

Lemma DecodeMOVHLPSMask_closed NElts M :
  0 <= NElts < 2 ^ 30 ->
  DecodeMOVHLPSMask NElts M = Ok (M ++ movhlps_mask NElts).
Proof.
  intros HN. unfold DecodeMOVHLPSMask, movhlps_mask.
  assert (0 <= NElts / 2 <= NElts) as HH.
  { split; [apply Z.div_pos; lia|]. apply Z.div_le_upper_bound; lia. }
  rewrite for_range_fold by lia.
  rewrite (foldM_push (fun i => [to_int (uadd NElts i)])) by done.
  cbn [mbind result_bind]. rewrite for_range_fold by lia.
  rewrite (foldM_push (fun i => [to_int i])) by done.
  rewrite !bind_unit_fmap, <- app_assoc. do 3 f_equal.
  - apply list_fmap_ext. intros j i Hi. apply lookup_seqZ in Hi as [-> Hj].
    apply to_int_uadd; lia.
  - apply fmap_to_int_seqZ; lia.
Qed.

Lemma DecodeMOVLHPSMask_closed NElts M :
  0 <= NElts < 2 ^ 30 ->
  DecodeMOVLHPSMask NElts M = Ok (M ++ movlhps_mask NElts).
Proof.
  intros HN. unfold DecodeMOVLHPSMask, movlhps_mask.
  assert (0 <= NElts / 2 <= NElts) as HH.
  { split; [apply Z.div_pos; lia|]. apply Z.div_le_upper_bound; lia. }
  rewrite for_range_fold by lia. rewrite Z.sub_0_r.
  rewrite (foldM_push (fun i => [to_int i])) by done.
  cbn [mbind result_bind]. rewrite for_range_fold by lia. rewrite Z.sub_0_r.
  rewrite (foldM_push (fun i => [to_int (uadd NElts i)])) by done.
  rewrite !bind_unit_fmap, <- app_assoc. do 3 f_equal.
  - apply fmap_to_int_seqZ; lia.
  - apply list_fmap_ext. intros j i Hi. apply lookup_seqZ in Hi as [-> Hj].
    apply to_int_uadd; lia.
Qed.

Lemma DecodeVPERMMask_closed Imm M :
  DecodeVPERMMask Imm M = Ok (M ++ vperm_mask Imm).
Proof.
  unfold DecodeVPERMMask, vperm_mask.
  rewrite for_range_fold by lia. change (seqZ 0 (4 - 0)) with [0; 1; 2; 3].
  cbn [foldM]. change (umul 2 0) with 0. change (umul 2 1) with 2.
  change (umul 2 2) with 4. change (umul 2 3) with 6.
  unfold ushr. cbn [Z.leb Z.ltb Z.compare Pos.compare Pos.compare_cont andb
                    mbind result_bind].
  assert (forall x, to_int (Z.land x 3) = Z.land x 3) as Hland.
  { intros x. apply to_int_small. pose proof (land_3_cases x). lia. }
  rewrite !Hland, Z.shiftr_0_r. unfold push_back.
  by rewrite <- !app_assoc.
Qed.

Lemma land_3_to_int x bias :
  0 <= bias -> bias + 3 < 2 ^ 31 ->
  to_int (uadd bias (Z.land x 3)) = bias + Z.land x 3.
Proof.
  intros. pose proof (land_3_cases x). apply to_int_uadd; lia.
Qed.

Lemma eighths VT :
  getVectorNumElements VT mod 8 = 0 ->
  getVectorNumElements VT = getVectorNumElements VT / 8 * 8.
Proof.
  intros Hmod.
  pose proof (Z.div_mod (getVectorNumElements VT) 8 ltac:(lia)). lia.
Qed.

Lemma DecodePSHUFHWMask_closed (fuel : nat) VT Imm M :
  getVectorNumElements VT mod 8 = 0 ->
  0 <= getVectorNumElements VT < 2 ^ 29 ->
  (Z.to_nat (getVectorNumElements VT / 8) <= fuel)%nat ->
  DecodePSHUFHWMask fuel VT Imm M = Ok (M ++ pshufhw_mask VT Imm).
Proof.
  intros Hmod HN Hfuel. unfold DecodePSHUFHWMask, pshufhw_mask. cbv zeta.
  pose proof (eighths VT Hmod) as H8.
  set (N := getVectorNumElements VT) in *.
  assert (0 <= N / 8) by (apply Z.div_pos; lia).
  rewrite H8 at 1. rewrite for_ne_stride_fold by lia.
  apply foldM_push_mapped. intros k m Hk. apply elem_of_seqZ in Hk.
  rewrite for_range_fold by lia. change (seqZ 0 (4 - 0)) with [0; 1; 2; 3].
  cbn [foldM mbind result_bind].
  rewrite for_range_fold by lia. change (seqZ 4 (8 - 4)) with [4; 5; 6; 7].
  cbn [foldM mbind result_bind snd].
  rewrite !(uadd_small (k * 8)) by lia.
  rewrite !land_3_to_int by lia.
  rewrite !to_int_small by lia.
  unfold push_back, quad_fields. rewrite <- !app_assoc. reflexivity.
Qed.

Lemma DecodePSHUFLWMask_closed (fuel : nat) VT Imm M :
  getVectorNumElements VT mod 8 = 0 ->
  0 <= getVectorNumElements VT < 2 ^ 29 ->
  (Z.to_nat (getVectorNumElements VT / 8) <= fuel)%nat ->
  DecodePSHUFLWMask fuel VT Imm M = Ok (M ++ pshuflw_mask VT Imm).
Proof.
  intros Hmod HN Hfuel. unfold DecodePSHUFLWMask, pshuflw_mask. cbv zeta.
  pose proof (eighths VT Hmod) as H8.
  set (N := getVectorNumElements VT) in *.
  assert (0 <= N / 8) by (apply Z.div_pos; lia).
  rewrite H8 at 1. rewrite for_ne_stride_fold by lia.
  apply foldM_push_mapped. intros k m Hk. apply elem_of_seqZ in Hk.
  rewrite for_range_fold by lia. change (seqZ 0 (4 - 0)) with [0; 1; 2; 3].
  cbn [foldM mbind result_bind snd].
  rewrite for_range_fold by lia. change (seqZ 4 (8 - 4)) with [4; 5; 6; 7].
  cbn [foldM mbind result_bind].
  rewrite !(uadd_small (k * 8)) by lia.
  rewrite !land_3_to_int by lia.
  rewrite !to_int_small by lia.
  unfold push_back, quad_fields. rewrite <- !app_assoc. reflexivity.
Qed.

Lemma unpack_shape_geometry VT :
  unpack_shape VT ->
  1 <= unpack_lanes VT /\ 1 <= unpack_lane_elts VT
  /\ getVectorNumElements VT = unpack_lanes VT * unpack_lane_elts VT.
Proof.
  intros (Hlanes & Hdiv & Hpos & Hbound).
  assert (1 <= unpack_lanes VT) as HK.
  { unfold unpack_lanes. destruct (Z.eqb_spec (NumLanes VT) 0); lia. }
  unfold unpack_lane_elts.
  pose proof (Z.div_mod (getVectorNumElements VT) (unpack_lanes VT)
                ltac:(lia)) as Hdm.
  rewrite Hdiv, Z.add_0_r in Hdm. split; [done|]. split; [nia|done].
Qed.

Lemma udiv_unpack_lanes VT :
  unpack_shape VT ->
  udiv (getVectorNumElements VT) (unpack_lanes VT)
  = Ok (unpack_lane_elts VT).
Proof.
  intros Hshape. destruct (unpack_shape_geometry VT Hshape) as (HK & _).
  unfold udiv. by destruct (Z.eqb_spec (unpack_lanes VT) 0) as [|_]; [lia|].
Qed.

Lemma unpack_pair_ints (N i : Z) :
  0 <= i -> i + N < 2 ^ 31 -> 0 <= N ->
  [to_int i; to_int (uadd i N)] = [i; i + N].
Proof. intros. by rewrite to_int_uadd, to_int_small by lia. Qed.

Lemma DecodeUNPCKHMask_closed (fuel : nat) VT M :
  unpack_shape VT ->
  (Z.to_nat (unpack_lanes VT) <= fuel)%nat ->
  DecodeUNPCKHMask fuel VT M = Ok (M ++ unpckh_mask VT).
Proof.
  intros Hshape Hfuel.
  destruct (unpack_shape_geometry VT Hshape) as (HK & HL & HN).
  pose proof Hshape as (_ & _ & Hpos & Hbound).
  unfold DecodeUNPCKHMask, unpckh_mask. cbv zeta.
  fold (NumLanes VT). fold (unpack_lanes VT).
  rewrite udiv_unpack_lanes by done. cbn [mbind result_bind].
  set (L := unpack_lane_elts VT) in *. set (N := getVectorNumElements VT) in *.
  set (K := unpack_lanes VT) in *.
  assert (0 <= L / 2 <= L) as HH.
  { split; [apply Z.div_pos; lia|]. apply Z.div_le_upper_bound; lia. }
  rewrite HN at 1. rewrite for_ne_stride_fold by (try done; lia).
  apply foldM_push_mapped. intros k m Hk. apply elem_of_seqZ in Hk.
  assert (0 <= k * L) by nia. assert (k * L + L <= N) by nia.
  rewrite !uadd_small by lia.
  rewrite for_range_fold by lia.
  replace (k * L + L - (k * L + L / 2)) with (L - L / 2) by lia.
  rewrite (foldM_push (fun i => [to_int i; to_int (uadd i N)])).
  - do 2 f_equal. apply Forall_bind_ext, Forall_seqZ. intros i Hi.
    apply unpack_pair_ints; lia.
  - intros i m' _. unfold push_back. by rewrite <- app_assoc.
Qed.

Lemma DecodeUNPCKLMask_closed (fuel : nat) VT M :
  unpack_shape VT ->
  (Z.to_nat (unpack_lanes VT) <= fuel)%nat ->
  DecodeUNPCKLMask fuel VT M = Ok (M ++ unpckl_mask VT).
Proof.
  intros Hshape Hfuel.
  destruct (unpack_shape_geometry VT Hshape) as (HK & HL & HN).
  pose proof Hshape as (_ & _ & Hpos & Hbound).
  unfold DecodeUNPCKLMask, unpckl_mask. cbv zeta.
  fold (NumLanes VT). fold (unpack_lanes VT).
  rewrite udiv_unpack_lanes by done. cbn [mbind result_bind].
  set (L := unpack_lane_elts VT) in *. set (N := getVectorNumElements VT) in *.
  set (K := unpack_lanes VT) in *.
  assert (0 <= L / 2 <= L) as HH.
  { split; [apply Z.div_pos; lia|]. apply Z.div_le_upper_bound; lia. }
  rewrite HN at 1. rewrite for_ne_stride_fold by (try done; lia).
  apply foldM_push_mapped. intros k m Hk. apply elem_of_seqZ in Hk.
  assert (0 <= k * L) by nia. assert (k * L + L <= N) by nia.
  rewrite !uadd_small by lia.
  rewrite for_range_fold by lia.
  replace (k * L + L / 2 - k * L) with (L / 2) by lia.
  rewrite (foldM_push (fun i => [to_int i; to_int (uadd i N)])).
  - do 2 f_equal. apply Forall_bind_ext, Forall_seqZ. intros i Hi.
    apply unpack_pair_ints; lia.
  - intros i m' _. unfold push_back. by rewrite <- app_assoc.
Qed.

(** ** The index range of the masks *)

Lemma in_range_bound (m : mask) (N : Z) :
  N <= Z.of_nat (length m) ->
  (forall x, x ∈ m -> x = SM_SentinelZero \/ 0 <= x < 2 * N) ->
  in_range m.
Proof.
  intros Hlen Hall. apply Forall_forall. intros x Hx Hns.
  destruct (Hall x Hx); [done|lia].
Qed.

Lemma length_lanes (K c : Z) (f : Z -> list Z) :
  0 <= K -> 0 <= c ->
  (forall k, 0 <= k < K -> Z.of_nat (length (f k)) = c) ->
  Z.of_nat (length (seqZ 0 K ≫= f)) = K * c.
Proof.
  intros HK Hc Hf.
  rewrite (length_bind_const f (Z.to_nat c)).
  - rewrite length_seqZ. lia.
  - intros k Hk. apply elem_of_seqZ in Hk. specialize (Hf k ltac:(lia)). lia.
Qed.

Lemma in_range_lanes (K c N : Z) (f : Z -> list Z) :
  0 <= K -> 0 <= c ->
  (forall k, 0 <= k < K -> Z.of_nat (length (f k)) = c) ->
  N <= K * c ->
  (forall k x, 0 <= k < K -> x ∈ f k -> 0 <= x < 2 * N) ->
  in_range (seqZ 0 K ≫= f).
Proof.
  intros HK Hc Hlen HN Hall. apply (in_range_bound _ N).
  - by rewrite (length_lanes K c).
  - intros x Hx. apply list_elem_of_bind in Hx as (k & Hx & Hk).
    apply elem_of_seqZ in Hk. right. apply (Hall k); [lia|done].
Qed.

Lemma length_row (a n : Z) (f : Z -> Z) :
  0 <= n -> Z.of_nat (length (seqZ a n ≫= fun i => [f i])) = n.
Proof. intros. rewrite bind_unit_fmap, length_fmap, length_seqZ. lia. Qed.

Lemma elem_of_row (a n x : Z) (f : Z -> Z) :
  x ∈ (seqZ a n ≫= fun i => [f i]) -> exists i, a <= i < a + n /\ x = f i.
Proof.
  rewrite bind_unit_fmap. intros Hx.
  apply list_elem_of_fmap in Hx as (i & -> & Hi).
  apply elem_of_seqZ in Hi. eauto.
Qed.

Lemma insertps_mask_in_range Imm : in_range (insertps_mask Imm).
Proof.
  unfold insertps_mask. cbv zeta. cbn [fmap list_fmap].
  pose proof (land_3_cases (Z.shiftr Imm 6)).
  apply Forall_forall. intros x Hx Hns. cbn [length].
  repeat (apply elem_of_cons in Hx as [->|Hx]);
    [..|by apply elem_of_nil in Hx];
    destruct (Z.testbit _ _); try done;
    destruct (_ =? _); lia.
Qed.

Lemma movhlps_mask_in_range NElts :
  0 <= NElts -> in_range (movhlps_mask NElts).
Proof.
  intros HN. unfold movhlps_mask.
  assert (0 <= NElts / 2 <= NElts) as HH.
  { split; [apply Z.div_pos; lia|]. apply Z.div_le_upper_bound; lia. }
  pose proof (Z.mul_div_le NElts 2 ltac:(lia)).
  apply (in_range_bound _ NElts).
  - rewrite length_app, length_fmap, !length_seqZ. lia.
  - intros x Hx. right. apply elem_of_app in Hx as [Hx|Hx].
    + apply list_elem_of_fmap in Hx as (i & -> & Hi).
      apply elem_of_seqZ in Hi. lia.
    + apply elem_of_seqZ in Hx. lia.
Qed.

Lemma movlhps_mask_in_range NElts :
  0 <= NElts -> in_range (movlhps_mask NElts).
Proof.
  intros HN. unfold movlhps_mask.
  assert (0 <= NElts / 2) as HH by (apply Z.div_pos; lia).
  pose proof (Z.div_mod NElts 2 ltac:(lia)).
  pose proof (Z.mod_pos_bound NElts 2 ltac:(lia)).
  apply (in_range_bound _ (2 * (NElts / 2))).
  - rewrite length_app, length_fmap, !length_seqZ. lia.
  - intros x Hx. right. apply elem_of_app in Hx as [Hx|Hx].
    + apply elem_of_seqZ in Hx. lia.
    + apply list_elem_of_fmap in Hx as (i & -> & Hi).
      apply elem_of_seqZ in Hi. lia.
Qed.

Lemma vperm_mask_in_range Imm : in_range (vperm_mask Imm).
Proof.
  unfold vperm_mask. apply Forall_forall. intros x Hx _. cbn [length].
  repeat (apply elem_of_cons in Hx as [->|Hx]);
    [..|by apply elem_of_nil in Hx];
    match goal with |- context [Z.land ?y 3] =>
      pose proof (land_3_cases y) end; lia.
Qed.

Lemma vperm2x128_mask_in_range VT Imm :
  0 <= getVectorNumElements VT -> in_range (vperm2x128_mask VT Imm).
Proof.
  intros HN.
  assert (0 <= getVectorNumElements VT / 2) as HH by (apply Z.div_pos; lia).
  apply (in_range_bound _ (2 * (getVectorNumElements VT / 2))).
  - by rewrite vperm2x128_mask_length.
  - intros x Hx. right. unfold vperm2x128_mask in Hx.
    pose proof (half_select_bounds Imm 0).
    pose proof (half_select_bounds Imm 1).
    apply elem_of_app in Hx as [Hx|Hx]; apply elem_of_seqZ in Hx; nia.
Qed.

Lemma palignr_mask_in_range VT Imm :
  whole_lanes VT ->
  0 <= Imm * (getVectorElementSizeInBits VT / 8) <= NumLaneElts VT ->
  in_range (palignr_mask VT Imm).
Proof.
  intros Hwl HOff.
  destruct (whole_lanes_geometry VT Hwl) as [HL HN].
  destruct Hwl as (Hlanes & _ & Hpos & Hbound).
  unfold palignr_mask. cbv zeta.
  set (L := NumLaneElts VT) in *. set (N := getVectorNumElements VT) in *.
  set (K := NumLanes VT) in *.
  set (Off := Imm * (getVectorElementSizeInBits VT / 8)) in *.
  apply (in_range_lanes K L N); [lia|lia| |lia|].
  - intros k Hk. apply length_row. lia.
  - intros k x Hk Hx. apply elem_of_row in Hx as (i & Hi & ->).
    assert (0 <= k * L) by nia. assert (k * L + L <= N) by nia.
    destruct (Z.leb_spec L (i + Off)); lia.
Qed.

(** Past the lane width the offset pushes the last entry out of range. *)
Lemma palignr_mask_out_of_range VT Imm :
  whole_lanes VT ->
  NumLaneElts VT < Imm * (getVectorElementSizeInBits VT / 8) ->
  ~ in_range (palignr_mask VT Imm).
Proof.
  intros Hwl HOff Hrange.
  destruct (whole_lanes_geometry VT Hwl) as [HL HN].
  destruct Hwl as (Hlanes & _ & Hpos & Hbound).
  unfold in_range in Hrange. rewrite Forall_forall in Hrange.
  assert (Z.of_nat (length (palignr_mask VT Imm)) = getVectorNumElements VT)
    as Hlen.
  { unfold palignr_mask. cbv zeta.
    rewrite (length_lanes _ (NumLaneElts VT)); [lia|lia|lia|].
    intros k Hk. apply length_row. lia. }
  rewrite Hlen in Hrange.
  set (L := NumLaneElts VT) in *. set (N := getVectorNumElements VT) in *.
  set (K := NumLanes VT) in *.
  set (Off := Imm * (getVectorElementSizeInBits VT / 8)) in *.
  assert (L - 1 + Off + (N - L) + (K - 1) * L ∈ palignr_mask VT Imm) as Hin.
  { unfold palignr_mask. cbv zeta. fold L N K Off.
    apply list_elem_of_bind. exists (K - 1). split; [|apply elem_of_seqZ; lia].
    apply list_elem_of_bind. exists (L - 1). split; [|apply elem_of_seqZ; lia].
    destruct (Z.leb_spec L (L - 1 + Off)); [|lia].
    apply list_elem_of_singleton. done. }
  apply Hrange in Hin; [nia|]. unfold SM_SentinelZero. nia.
Qed.

Lemma pshuf_mask_in_range VT Imm :
  whole_lanes VT -> in_range (pshuf_mask VT Imm).
Proof.
  intros Hwl.
  destruct (whole_lanes_geometry VT Hwl) as [HL HN].
  destruct Hwl as (Hlanes & _ & Hpos & Hbound).
  unfold pshuf_mask. cbv zeta.
  set (L := NumLaneElts VT) in *. set (N := getVectorNumElements VT) in *.
  set (K := NumLanes VT) in *.
  apply (in_range_lanes K L N); [lia|lia| |lia|].
  - intros k Hk. apply length_row. lia.
  - intros k x Hk Hx. apply elem_of_row in Hx as (i & Hi & ->).
    assert (0 <= k * L) by nia. assert (k * L + L <= N) by nia.
    match goal with |- context [?a mod L] =>
      pose proof (Z.mod_pos_bound a L ltac:(lia)) end.
    lia.
Qed.

Lemma shufp_mask_in_range VT Imm :
  whole_lanes VT -> NumLaneElts VT mod 2 = 0 ->
  in_range (shufp_mask VT Imm).
Proof.
  intros Hwl Heven.
  destruct (whole_lanes_geometry VT Hwl) as [HL HN].
  destruct Hwl as (Hlanes & _ & Hpos & Hbound).
  unfold shufp_mask. cbv zeta.
  set (L := NumLaneElts VT) in *. set (N := getVectorNumElements VT) in *.
  set (K := NumLanes VT) in *.
  assert (0 <= L / 2) as HH by (apply Z.div_pos; lia).
  assert (L = 2 * (L / 2)) as HL2.
  { pose proof (Z.div_mod L 2 ltac:(lia)). lia. }
  apply (in_range_lanes K (2 * (L / 2)) N); [lia|lia| |nia|].
  - intros k Hk.
    apply (length_lanes 2 (L / 2)); [lia|lia|].
    intros h Hh. apply length_row. lia.
  - intros k x Hk Hx.
    apply list_elem_of_bind in Hx as (h & Hx & Hh).
    apply elem_of_seqZ in Hh.
    apply elem_of_row in Hx as (i & Hi & ->).
    assert (0 <= k * L) by nia. assert (k * L + L <= N) by nia.
    assert (0 <= h * N <= N) by nia.
    match goal with |- context [?a mod L] =>
      pose proof (Z.mod_pos_bound a L ltac:(lia)) end.
    lia.
Qed.

Lemma quad_fields_bounds Imm f : f ∈ quad_fields Imm -> 0 <= f <= 3.
Proof.
  unfold quad_fields. intros Hf.
  repeat (apply elem_of_cons in Hf as [->|Hf]);
    [..|by apply elem_of_nil in Hf];
    match goal with |- context [Z.land ?y 3] =>
      pose proof (land_3_cases y) end; lia.
Qed.

Lemma pshufhw_mask_in_range VT Imm :
  getVectorNumElements VT mod 8 = 0 -> 0 <= getVectorNumElements VT ->
  in_range (pshufhw_mask VT Imm).
Proof.
  intros Hmod HN. pose proof (eighths VT Hmod) as H8.
  unfold pshufhw_mask.
  set (N := getVectorNumElements VT) in *.
  assert (0 <= N / 8) by (apply Z.div_pos; lia).
  apply (in_range_lanes (N / 8) 8 N); [lia|lia|done|lia|].
  intros k x Hk Hx. apply elem_of_app in Hx as [Hx|Hx].
  - apply list_elem_of_fmap in Hx as (i & -> & Hi).
    repeat (apply elem_of_cons in Hi as [->|Hi]);
      [..|by apply elem_of_nil in Hi]; lia.
  - apply list_elem_of_fmap in Hx as (f & -> & Hf).
    apply quad_fields_bounds in Hf. lia.
Qed.

Lemma pshuflw_mask_in_range VT Imm :
  getVectorNumElements VT mod 8 = 0 -> 0 <= getVectorNumElements VT ->
  in_range (pshuflw_mask VT Imm).
Proof.
  intros Hmod HN. pose proof (eighths VT Hmod) as H8.
  unfold pshuflw_mask.
  set (N := getVectorNumElements VT) in *.
  assert (0 <= N / 8) by (apply Z.div_pos; lia).
  apply (in_range_lanes (N / 8) 8 N); [lia|lia|done|lia|].
  intros k x Hk Hx. apply elem_of_app in Hx as [Hx|Hx].
  - apply list_elem_of_fmap in Hx as (f & -> & Hf).
    apply quad_fields_bounds in Hf. lia.
  - apply list_elem_of_fmap in Hx as (i & -> & Hi).
    repeat (apply elem_of_cons in Hi as [->|Hi]);
      [..|by apply elem_of_nil in Hi]; lia.
Qed.

Lemma length_pairs (a n : Z) (f g : Z -> Z) :
  0 <= n -> Z.of_nat (length (seqZ a n ≫= fun i => [f i; g i])) = 2 * n.
Proof.
  intros Hn. rewrite (length_bind_const _ 2) by done.
  rewrite length_seqZ. lia.
Qed.

Lemma elem_of_pairs (a n x : Z) (f g : Z -> Z) :
  x ∈ (seqZ a n ≫= fun i => [f i; g i]) ->
  exists i, a <= i < a + n /\ (x = f i \/ x = g i).
Proof.
  intros Hx. apply list_elem_of_bind in Hx as (i & Hx & Hi).
  apply elem_of_seqZ in Hi. exists i. split; [done|].
  apply elem_of_cons in Hx as [->|Hx]; [by left|].
  apply list_elem_of_singleton in Hx as ->. by right.
Qed.

Lemma unpckh_mask_in_range VT : unpack_shape VT -> in_range (unpckh_mask VT).
Proof.
  intros Hshape.
  destruct (unpack_shape_geometry VT Hshape) as (HK & HL & HN).
  destruct Hshape as (_ & _ & Hpos & Hbound).
  unfold unpckh_mask. cbv zeta.
  set (L := unpack_lane_elts VT) in *. set (N := getVectorNumElements VT) in *.
  set (K := unpack_lanes VT) in *.
  assert (0 <= L / 2) as HH by (apply Z.div_pos; lia).
  pose proof (Z.mul_div_le L 2 ltac:(lia)).
  apply (in_range_lanes K (2 * (L - L / 2)) N); [lia|lia| |nia|].
  - intros k Hk. apply length_pairs. lia.
  - intros k x Hk Hx. apply elem_of_pairs in Hx as (i & Hi & Hx).
    assert (0 <= k * L) by nia. assert (k * L + L <= N) by nia.
    destruct Hx as [->| ->]; lia.
Qed.

Lemma unpckl_mask_in_range VT :
  unpack_shape VT ->
  unpack_lane_elts VT mod 2 = 0 \/ unpack_lanes VT = 1 ->
  in_range (unpckl_mask VT).
Proof.
  intros Hshape Hparity.
  destruct (unpack_shape_geometry VT Hshape) as (HK & HL & HN).
  destruct Hshape as (_ & _ & Hpos & Hbound).
  unfold unpckl_mask. cbv zeta.
  set (L := unpack_lane_elts VT) in *. set (N := getVectorNumElements VT) in *.
  set (K := unpack_lanes VT) in *.
  assert (0 <= L / 2) as HH by (apply Z.div_pos; lia).
  pose proof (Z.div_mod L 2 ltac:(lia)) as Hdm.
  pose proof (Z.mod_pos_bound L 2 ltac:(lia)) as Hmb.
  apply (in_range_lanes K (2 * (L / 2)) (K * (2 * (L / 2)))); [lia|lia| |lia|].
  - intros k Hk. apply length_pairs. lia.
  - intros k x Hk Hx. apply elem_of_pairs in Hx as (i & Hi & Hx).
    assert (0 <= k * L) by nia. assert (k * L + L <= N) by nia.
    destruct Hparity as [Heven|Hone].
    + assert (K * (2 * (L / 2)) = N) as -> by nia.
      destruct Hx as [->| ->]; lia.
    + assert (k = 0) as -> by lia. rewrite Hone in *.
      destruct Hx as [->| ->]; lia.
Qed.

Lemma pshufb_masks_in_range (table : list Z) :
  Forall is_byte table ->
  (forall (i : nat) E, table !! i = Some E ->
     pshufb_in_bounds (Z.of_nat (length table)) (Z.of_nat i) E) ->
  in_range (imap (fun i E => pshufb_index (Z.of_nat i) E) table).
Proof.
  intros Hbytes Hall. apply (in_range_bound _ (Z.of_nat (length table))).
  - by rewrite length_imap.
  - intros x Hx. apply elem_of_lookup_imap in Hx as (i & E & -> & Hi).
    specialize (Hall i E Hi). unfold pshufb_in_bounds in Hall.
    unfold pshufb_index.
    destruct (Z.testbit E 7) eqn:Hbit; [by left|right].
    destruct (byte_bit7_clear E) as [HE7 ?];
      [by eapply Forall_lookup_1|done|].
    destruct Hall as [|Hall]; [done|]. rewrite HE7 in *.
    destruct (Z.of_nat i <? 16); lia.
Qed.

Lemma DecodeBLENDMask_in_range VT Imm (m : mask) :
  DecodeBLENDMask VT Imm [] = Ok m -> in_range m.
Proof.
  unfold DecodeBLENDMask. cbv zeta.
  set (NE := to_int (getVectorNumElements VT)).
  rewrite for_lt_fold, Z.sub_0_r.
  rewrite (foldM_entries (fun i =>
    sh ← ushr Imm i; Ok (if negb (Z.land sh 1 =? 0) then NE + i else i))).
  - intros (xs & -> & Hxs). simpl.
    pose proof (Forall2_length _ _ _ Hxs) as Hlen. rewrite length_seqZ in Hlen.
    apply Forall_forall. intros x Hx _.
    apply list_elem_of_lookup in Hx as [i Hi].
    destruct (Forall2_lookup_r _ _ _ _ _ Hxs Hi) as (j & Hj & Hg).
    apply lookup_seqZ in Hj as [-> Hj].
    destruct (ushr Imm _) as [sh|]; [|done]. simpl in Hg.
    injection Hg as <-. destruct (negb _); lia.
  - intros i m'. by destruct (ushr Imm i).
Qed.




(** * Further properties of the code *)

(** ** The decode status *)

(** X1. The values of [DecodeStatus] make the bitwise AND of two statuses
    the status of the table in the header comment, so that the AND of
    the statuses of any number of parts is [Success] exactly when all are
    [Success], [Fail] exactly when one is [Fail], and [SoftFail]
    otherwise. *)
Theorem X1_decode_status_and_is_the_weaker_status :
  (forall a b,
     Z.land (DecodeStatus_value a) (DecodeStatus_value b)
     = DecodeStatus_value (DecodeStatus_table a b))
  /\ (forall a b, DecodeStatus_value a = DecodeStatus_value b -> a = b)
  /\ (forall l,
        (DecodeStatus_reduce l = DecodeStatus_value Success
         <-> Forall (fun s => s = Success) l)
        /\ (DecodeStatus_reduce l = DecodeStatus_value Fail
            <-> Exists (fun s => s = Fail) l)
        /\ (DecodeStatus_reduce l = DecodeStatus_value SoftFail
            <-> Exists (fun s => s = SoftFail) l
                /\ Forall (fun s => s <> Fail) l)).
Proof.
  split; [by intros [] []|]. split; [by intros [] []|].
  induction l as [|s l (IH1 & IH2 & IH3)].
  - cbn. rewrite Forall_nil, !Exists_nil. intuition discriminate.
  - unfold DecodeStatus_reduce in *. cbn [foldr].
    rewrite Forall_cons, !Exists_cons, Forall_cons.
    set (r := foldr _ _ l) in *.
    assert (r = 0 \/ r = 1 \/ r = 3) as Hr.
    { subst r. clear. induction l as [|s l IH]; cbn [foldr]; [auto|].
      destruct s, IH as [-> | [-> | ->]]; cbn; auto. }
    assert (Exists (fun s => s = Fail) l ->
            Forall (fun s => s <> Fail) l -> False) as Hexcl.
    { intros Hex Hall. apply Exists_exists in Hex as (x & Hx & ->).
      rewrite Forall_forall in Hall. by apply (Hall Fail). }
    assert (Forall (fun s => s = Success) l ->
            Forall (fun s => s <> Fail) l) as Hsucc.
    { intros Hall. eapply Forall_impl; [exact Hall|]. by intros x ->. }
    destruct s, Hr as [Hr | [Hr | Hr]]; rewrite Hr in *; cbn in *;
      intuition (discriminate || congruence).
Qed.

Lemma X1_decode_status_witness :
  DecodeStatus_value (DecodeStatus_table SoftFail Success)
  = DecodeStatus_value SoftFail
  /\ DecodeStatus_reduce [Success; SoftFail; Success]
     = DecodeStatus_value SoftFail
  /\ DecodeStatus_reduce [Success; Fail; SoftFail] = DecodeStatus_value Fail.
Proof.
  destruct X1_decode_status_and_is_the_weaker_status as (Hand & _ & Hred).
  split; [reflexivity|]. split.
  - apply (proj2 (Hred [Success; SoftFail; Success])). split.
    + apply Exists_cons_tl, Exists_cons_hd. reflexivity.
    + repeat (constructor; [discriminate|]). constructor.
  - apply (proj1 (proj2 (Hred [Success; Fail; SoftFail]))).
    apply Exists_cons_tl, Exists_cons_hd. reflexivity.
Defined.

(** ** Lists of lanes *)

Lemma foldM_app {St : Type} (body : Z -> St -> result St) vals1 vals2 s :
  foldM body (vals1 ++ vals2) s = s' ← foldM body vals1 s; foldM body vals2 s'.
Proof.
  revert s; induction vals1 as [|i vals1 IH]; intros s; simpl; [done|].
  destruct (body i s) as [s'|err]; simpl; [apply IH|done].
Qed.

(** Entry [j] of lane [k] when every lane has [c] entries. *)
Lemma lookup_lanes (K : nat) (c : nat) (f : Z -> list Z) (k j : nat) :
  (forall k', (k' < K)%nat -> length (f (Z.of_nat k')) = c) ->
  (k < K)%nat -> (j < c)%nat ->
  (seqZ 0 (Z.of_nat K) ≫= f) !! (k * c + j)%nat = f (Z.of_nat k) !! j.
Proof.
  induction K as [|K IH]; intros Hlen Hk Hj; [lia|].
  rewrite seqZ_S, bind_app, bind_singleton, Z.add_0_l.
  assert (length (seqZ 0 (Z.of_nat K) ≫= f) = (K * c)%nat) as HlenK.
  { rewrite (length_bind_const f c), length_seqZ; [lia|].
    intros x Hx. apply elem_of_seqZ in Hx.
    rewrite <- (Z2Nat.id x) by lia. apply Hlen. lia. }
  destruct (decide (k < K)%nat) as [Hlt|Hge].
  - rewrite lookup_app_l by (rewrite HlenK; nia).
    apply IH; [intros; apply Hlen|..]; lia.
  - assert (k = K) as -> by lia.
    rewrite lookup_app_r by (rewrite HlenK; lia).
    rewrite HlenK. f_equal. lia.
Qed.

(** Consecutive lanes of consecutive indices. *)
Lemma seqZ_lanes (a L : Z) (K : nat) :
  0 <= L ->
  (seqZ 0 (Z.of_nat K) ≫= fun k => seqZ (a + k * L) L)
  = seqZ a (Z.of_nat K * L).
Proof.
  intros HL. induction K as [|K IH].
  - by rewrite Z.mul_0_l.
  - rewrite seqZ_S, bind_app, bind_singleton, IH, Z.add_0_l.
    replace (Z.of_nat (S K) * L) with (Z.of_nat K * L + L) by lia.
    rewrite seqZ_app by nia. done.
Qed.

Lemma list_bind_bind {A B C} (f : A -> list B) (g : B -> list C) (l : list A) :
  (l ≫= f) ≫= g = l ≫= fun x => f x ≫= g.
Proof.
  induction l as [|x l IH]; [done|].
  by rewrite !bind_cons, bind_app, IH.
Qed.

(** ** The move-high and move-low decoders *)

(** X2. For every element count [NElts] (below 2^30) the move-high
    decoder appends [NElts - NElts/2] entries that read the back of source
    2 and then as many that read the back of source 1, starting at element
    [NElts/2] in both: [NElts] entries when [NElts] is even, [NElts + 1]
    when it is odd, none when it is 0. *)
Theorem X2_movhlps_mask (NElts : Z) (M : mask) :
  0 <= NElts < 2 ^ 30 ->
  DecodeMOVHLPSMask NElts M = Ok (M ++ movhlps_mask NElts)
  /\ Z.of_nat (length (movhlps_mask NElts)) = NElts + NElts mod 2
  /\ (forall j : nat, Z.of_nat j < NElts - NElts / 2 ->
        movhlps_mask NElts !! j = Some (NElts + (NElts / 2 + Z.of_nat j))
        /\ movhlps_mask NElts !! (Z.to_nat (NElts - NElts / 2) + j)%nat
           = Some (NElts / 2 + Z.of_nat j)).
Proof.
  intros HN. split; [by apply DecodeMOVHLPSMask_closed|].
  pose proof (Z.div_mod NElts 2 ltac:(lia)) as Hdm.
  pose proof (Z.mod_pos_bound NElts 2 ltac:(lia)) as Hmb.
  unfold movhlps_mask. split.
  - rewrite length_app, length_fmap, !length_seqZ. lia.
  - intros j Hj. split.
    + rewrite lookup_app_l by (rewrite length_fmap, length_seqZ; lia).
      by rewrite list_lookup_fmap, lookup_seqZ_lt by lia.
    + rewrite lookup_app_r by (rewrite length_fmap, length_seqZ; lia).
      rewrite length_fmap, length_seqZ.
      replace (Z.to_nat (NElts - NElts / 2) + j
               - Z.to_nat (NElts - NElts / 2))%nat with j by lia.
      by rewrite lookup_seqZ_lt by lia.
Qed.

Lemma X2_movhlps_mask_witness :
  0 <= 3 < 2 ^ 30 /\ DecodeMOVHLPSMask 3 [] = Ok [4; 5; 1; 2].
Proof.
  assert (0 <= 3 < 2 ^ 30) as H by lia.
  split; [exact H|]. exact (proj1 (X2_movhlps_mask 3 [] H)).
Defined.

(** X3. For every element count [NElts] (below 2^30) the move-low decoder
    appends the first [NElts/2] entries of source 1 and then the first
    [NElts/2] entries of source 2: [NElts] entries when [NElts] is even,
    [NElts - 1] when it is odd. *)
Theorem X3_movlhps_mask (NElts : Z) (M : mask) :
  0 <= NElts < 2 ^ 30 ->
  DecodeMOVLHPSMask NElts M = Ok (M ++ movlhps_mask NElts)
  /\ Z.of_nat (length (movlhps_mask NElts)) = NElts - NElts mod 2
  /\ (forall j : nat, Z.of_nat j < NElts / 2 ->
        movlhps_mask NElts !! j = Some (Z.of_nat j)
        /\ movlhps_mask NElts !! (Z.to_nat (NElts / 2) + j)%nat
           = Some (NElts + Z.of_nat j)).
Proof.
  intros HN. split; [by apply DecodeMOVLHPSMask_closed|].
  pose proof (Z.div_mod NElts 2 ltac:(lia)) as Hdm.
  pose proof (Z.mod_pos_bound NElts 2 ltac:(lia)) as Hmb.
  unfold movlhps_mask. split.
  - rewrite length_app, length_fmap, !length_seqZ. lia.
  - intros j Hj. split.
    + rewrite lookup_app_l by (rewrite length_seqZ; lia).
      by rewrite lookup_seqZ_lt by lia.
    + rewrite lookup_app_r by (rewrite length_seqZ; lia).
      rewrite length_seqZ.
      replace (Z.to_nat (NElts / 2) + j - Z.to_nat (NElts / 2))%nat
        with j by lia.
      by rewrite list_lookup_fmap, lookup_seqZ_lt by lia.
Qed.

Lemma X3_movlhps_mask_witness :
  0 <= 3 < 2 ^ 30 /\ DecodeMOVLHPSMask 3 [] = Ok [0; 3].
Proof.
  assert (0 <= 3 < 2 ^ 30) as H by lia.
  split; [exact H|]. exact (proj1 (X3_movlhps_mask 3 [] H)).
Defined.

(** ** The blend decoder *)

Lemma blend_bit Imm i :
  0 <= i -> negb (Z.land (Z.shiftr Imm i) 1 =? 0) = Z.testbit Imm i.
Proof.
  intros Hi. pose proof (land_pow2_eqb (Z.shiftr Imm i) 0 ltac:(lia)) as H.
  change (2 ^ 0) with 1 in H. rewrite H, negb_involutive.
  rewrite Z.shiftr_spec by lia. by rewrite Z.add_0_l.
Qed.

Lemma blend_rounds (NE Imm : Z) (n : Z) (M : mask) :
  0 <= n <= 32 ->
  foldM (fun i ShuffleMask =>
           sh ← ushr Imm i;
           Ok (push_back (if negb (Z.land sh 1 =? 0) then NE + i else i)
                 ShuffleMask)) (seqZ 0 n) M
  = Ok (M ++ ((fun i => if Z.testbit Imm i then NE + i else i) <$> seqZ 0 n)).
Proof.
  intros Hn. rewrite <- bind_unit_fmap. apply foldM_push.
  intros i m Hi. apply elem_of_seqZ in Hi. unfold ushr.
  destruct (Z.leb_spec 0 i); [|lia]. destruct (Z.ltb_spec i 32); [|lia].
  cbn [andb mbind result_bind]. by rewrite blend_bit by lia.
Qed.

(** X4. On a vector of at most 32 elements the blend decoder appends one
    entry per element, for every immediate: position [i] reads element [i]
    of source 2 when bit [i] of the immediate is set and element [i] of
    source 1 otherwise, so no entry ever leaves its position. *)
Theorem X4_blend_mask (VT : MVT) (Imm : Z) (M : mask) :
  0 <= getVectorNumElements VT <= 32 ->
  DecodeBLENDMask VT Imm M = Ok (M ++ blend_mask VT Imm)
  /\ Z.of_nat (length (blend_mask VT Imm)) = getVectorNumElements VT
  /\ (forall i : nat, Z.of_nat i < getVectorNumElements VT ->
        blend_mask VT Imm !! i
        = Some (if Z.testbit Imm (Z.of_nat i)
                then getVectorNumElements VT + Z.of_nat i else Z.of_nat i)).
Proof.
  intros HN. unfold DecodeBLENDMask, blend_mask. cbv zeta.
  rewrite to_int_small by lia. split; [|split].
  - rewrite for_lt_fold, Z.sub_0_r. by apply blend_rounds.
  - rewrite length_fmap, length_seqZ. lia.
  - intros i Hi. by rewrite list_lookup_fmap, lookup_seqZ_lt by lia.
Qed.

Lemma X4_blend_mask_witness :
  0 <= getVectorNumElements v8i16 <= 32
  /\ DecodeBLENDMask v8i16 0xA5 [] = Ok [8; 1; 10; 3; 4; 13; 6; 15].
Proof.
  assert (0 <= getVectorNumElements v8i16 <= 32) as H
    by (vm_compute; intuition discriminate).
  split; [exact H|]. exact (proj1 (X4_blend_mask v8i16 0xA5 [] H)).
Defined.

(** X5. On a vector of more than 32 elements the blend decoder shifts its
    32-bit immediate by 32 in round 32, which is undefined: no mask is
    produced, whatever the immediate and the container. *)
Theorem X5_blend_shift_too_wide (VT : MVT) (Imm : Z) (M : mask) :
  32 < getVectorNumElements VT < 2 ^ 31 ->
  DecodeBLENDMask VT Imm M = Err ShiftTooWide.
Proof.
  intros HN. unfold DecodeBLENDMask. cbv zeta.
  rewrite to_int_small by lia. rewrite for_lt_fold, Z.sub_0_r.
  assert (seqZ 0 (getVectorNumElements VT)
          = seqZ 0 32 ++ seqZ 32 (getVectorNumElements VT - 32)) as ->.
  { rewrite <- (seqZ_app 0 32) by lia. f_equal. lia. }
  rewrite foldM_app, blend_rounds by lia.
  cbn [mbind result_bind]. rewrite seqZ_cons by lia.
  reflexivity.
Qed.

Lemma X5_blend_shift_too_wide_witness :
  32 < getVectorNumElements v64i8 < 2 ^ 31
  /\ DecodeBLENDMask v64i8 5 [] = Err ShiftTooWide.
Proof.
  assert (32 < getVectorNumElements v64i8 < 2 ^ 31) as H
    by (vm_compute; intuition discriminate).
  split; [exact H|]. exact (X5_blend_shift_too_wide v64i8 5 [] H).
Defined.

(** ** The bits of the immediate that the decoders read *)

Lemma field_mod_256 (x k w : Z) :
  0 <= k -> 0 <= w -> k + w <= 8 ->
  Z.land (Z.shiftr (x mod 256) k) (Z.ones w)
  = Z.land (Z.shiftr x k) (Z.ones w).
Proof.
  intros Hk Hw Hkw. apply Z.bits_inj'; intros n Hn.
  rewrite !Z.land_spec, !Z.shiftr_spec by lia.
  destruct (Z.ltb_spec n w).
  - rewrite Z.ones_spec_low, !andb_true_r by lia.
    change 256 with (2 ^ 8). by rewrite Z.mod_pow2_bits_low by lia.
  - by rewrite Z.ones_spec_high, !andb_false_r by lia.
Qed.

Lemma land_mod_256 (x c : Z) :
  0 <= c < 256 -> Z.land (x mod 256) c = Z.land x c.
Proof.
  intros Hc. apply Z.bits_inj'; intros n Hn. rewrite !Z.land_spec.
  destruct (Z.ltb_spec n 8).
  - change 256 with (2 ^ 8). by rewrite Z.mod_pow2_bits_low by lia.
  - assert (Z.testbit c n = false) as ->; [|by rewrite !andb_false_r].
    rewrite <- (Z.mod_small c (2 ^ 8)) by lia.
    apply Z.mod_pow2_bits_high. lia.
Qed.

Lemma vperm_mask_mod_256 Imm : vperm_mask (Imm mod 256) = vperm_mask Imm.
Proof.
  unfold vperm_mask. change 3 with (Z.ones 2).
  rewrite <- (Z.shiftr_0_r (Imm mod 256)) at 1.
  rewrite <- (Z.shiftr_0_r Imm) at 5.
  by rewrite !field_mod_256 by lia.
Qed.

(** X6. The quad-word permute decoder never fails: for every immediate it
    appends four entries, entry [i] being the 2-bit field at bit [2i]; all
    four read source 1 (they lie in [0, 4)), and bits of the immediate
    above the low 8 are ignored. *)
Theorem X6_vperm_mask :
  forall Imm M,
    DecodeVPERMMask Imm M = Ok (M ++ vperm_mask Imm)
    /\ (forall i : nat, (i < 4)%nat ->
          vperm_mask Imm !! i
          = Some (Z.land (Z.shiftr Imm (2 * Z.of_nat i)) 3))
    /\ Forall (fun x => 0 <= x < 4) (vperm_mask Imm)
    /\ DecodeVPERMMask (Imm mod 256) M = DecodeVPERMMask Imm M.
Proof.
  intros Imm M. split; [apply DecodeVPERMMask_closed|]. split; [|split].
  - intros i Hi. destruct i as [|[|[|[|i]]]]; [| | | |lia]; reflexivity.
  - unfold vperm_mask.
    repeat (constructor;
            [match goal with |- context [Z.land ?y 3] =>
               pose proof (land_3_cases y) end; lia|]).
    constructor.
  - by rewrite !DecodeVPERMMask_closed, vperm_mask_mod_256.
Qed.

Lemma X6_vperm_mask_witness :
  DecodeVPERMMask 0x1B [7] = Ok [7; 3; 2; 1; 0]
  /\ vperm_mask 0x1B !! 2%nat = Some 1
  /\ DecodeVPERMMask 0x31B [] = DecodeVPERMMask 0x1B [].
Proof.
  destruct (X6_vperm_mask 0x1B [7]) as (Hok & Hat & _ & _).
  destruct (X6_vperm_mask 0x31B []) as (_ & _ & _ & Hlow).
  split; [exact Hok|]. split; [apply (Hat 2%nat); lia|].
  symmetry. exact Hlow.
Defined.

(** ** The word permute decoders *)

Lemma quad_fields_vperm Imm : quad_fields Imm = vperm_mask Imm.
Proof.
  unfold quad_fields, vperm_mask. by rewrite !Z.shiftr_shiftr by lia.
Qed.

Lemma length_pshufhw_mask VT Imm :
  getVectorNumElements VT mod 8 = 0 -> 0 <= getVectorNumElements VT ->
  Z.of_nat (length (pshufhw_mask VT Imm)) = getVectorNumElements VT.
Proof.
  intros Hmod HN. unfold pshufhw_mask.
  assert (0 <= getVectorNumElements VT / 8) by (apply Z.div_pos; lia).
  rewrite (length_lanes _ 8) by (done || lia).
  pose proof (eighths VT Hmod). lia.
Qed.

Lemma length_pshuflw_mask VT Imm :
  getVectorNumElements VT mod 8 = 0 -> 0 <= getVectorNumElements VT ->
  Z.of_nat (length (pshuflw_mask VT Imm)) = getVectorNumElements VT.
Proof.
  intros Hmod HN. unfold pshuflw_mask.
  assert (0 <= getVectorNumElements VT / 8) by (apply Z.div_pos; lia).
  rewrite (length_lanes _ 8) by (done || lia).
  pose proof (eighths VT Hmod). lia.
Qed.

(** X7. On a vector of whole groups of 8 elements the high-word permute
    decoder appends one entry per element: in every group [k] the low four
    positions copy through and high position [4 + j] reads element
    [4 + f] of the same group, [f] the 2-bit field at bit [2j] of the
    immediate, read afresh in every group; bits above the low 8 are
    ignored. *)
Theorem X7_pshufhw_mask (fuel : nat) (VT : MVT) (Imm : Z) (M : mask) :
  getVectorNumElements VT mod 8 = 0 ->
  0 <= getVectorNumElements VT < 2 ^ 29 ->
  (Z.to_nat (getVectorNumElements VT / 8) <= fuel)%nat ->
  DecodePSHUFHWMask fuel VT Imm M = Ok (M ++ pshufhw_mask VT Imm)
  /\ Z.of_nat (length (pshufhw_mask VT Imm)) = getVectorNumElements VT
  /\ (forall k j : nat,
        Z.of_nat k < getVectorNumElements VT / 8 -> (j < 4)%nat ->
        pshufhw_mask VT Imm !! (k * 8 + j)%nat
        = Some (Z.of_nat k * 8 + Z.of_nat j)
        /\ pshufhw_mask VT Imm !! (k * 8 + (4 + j))%nat
           = Some (Z.of_nat k * 8 + 4
                   + Z.land (Z.shiftr Imm (2 * Z.of_nat j)) 3))
  /\ pshufhw_mask VT (Imm mod 256) = pshufhw_mask VT Imm.
Proof.
  intros Hmod HN Hfuel. split; [by apply DecodePSHUFHWMask_closed|].
  split; [apply length_pshufhw_mask; [done|lia]|]. split.
  - intros k j Hk Hj. unfold pshufhw_mask.
    assert (0 <= getVectorNumElements VT / 8) by (apply Z.div_pos; lia).
    rewrite <- (Z2Nat.id (getVectorNumElements VT / 8)) by done.
    rewrite !(lookup_lanes _ 8) by (done || lia).
    rewrite quad_fields_vperm.
    destruct j as [|[|[|[|j]]]]; [| | | |lia]; split; reflexivity.
  - unfold pshufhw_mask.
    by rewrite !quad_fields_vperm, vperm_mask_mod_256.
Qed.

Lemma X7_pshufhw_mask_witness :
  getVectorNumElements v16i16 mod 8 = 0
  /\ 0 <= getVectorNumElements v16i16 < 2 ^ 29
  /\ (Z.to_nat (getVectorNumElements v16i16 / 8) <= 2)%nat
  /\ DecodePSHUFHWMask 2 v16i16 0x1B []
     = Ok [0; 1; 2; 3; 7; 6; 5; 4; 8; 9; 10; 11; 15; 14; 13; 12].
Proof.
  assert (getVectorNumElements v16i16 mod 8 = 0) as H1 by reflexivity.
  assert (0 <= getVectorNumElements v16i16 < 2 ^ 29) as H2
    by (vm_compute; intuition discriminate).
  assert (Z.to_nat (getVectorNumElements v16i16 / 8) <= 2)%nat as H3
    by (vm_compute; lia).
  split; [exact H1|]. split; [exact H2|]. split; [exact H3|].
  exact (proj1 (X7_pshufhw_mask 2 v16i16 0x1B [] H1 H2 H3)).
Defined.

(** X8. On a vector of whole groups of 8 elements the low-word permute
    decoder appends one entry per element: in every group [k] low
    position [j] reads element [f] of the same group, [f] the 2-bit field
    at bit [2j] of the immediate, read afresh in every group, and the high
    four positions copy through; bits above the low 8 are ignored. *)
Theorem X8_pshuflw_mask (fuel : nat) (VT : MVT) (Imm : Z) (M : mask) :
  getVectorNumElements VT mod 8 = 0 ->
  0 <= getVectorNumElements VT < 2 ^ 29 ->
  (Z.to_nat (getVectorNumElements VT / 8) <= fuel)%nat ->
  DecodePSHUFLWMask fuel VT Imm M = Ok (M ++ pshuflw_mask VT Imm)
  /\ Z.of_nat (length (pshuflw_mask VT Imm)) = getVectorNumElements VT
  /\ (forall k j : nat,
        Z.of_nat k < getVectorNumElements VT / 8 -> (j < 4)%nat ->
        pshuflw_mask VT Imm !! (k * 8 + j)%nat
        = Some (Z.of_nat k * 8 + Z.land (Z.shiftr Imm (2 * Z.of_nat j)) 3)
        /\ pshuflw_mask VT Imm !! (k * 8 + (4 + j))%nat
           = Some (Z.of_nat k * 8 + (4 + Z.of_nat j)))
  /\ pshuflw_mask VT (Imm mod 256) = pshuflw_mask VT Imm.
Proof.
  intros Hmod HN Hfuel. split; [by apply DecodePSHUFLWMask_closed|].
  split; [apply length_pshuflw_mask; [done|lia]|]. split.
  - intros k j Hk Hj. unfold pshuflw_mask.
    assert (0 <= getVectorNumElements VT / 8) by (apply Z.div_pos; lia).
    rewrite <- (Z2Nat.id (getVectorNumElements VT / 8)) by done.
    rewrite !(lookup_lanes _ 8) by (done || lia).
    rewrite quad_fields_vperm.
    destruct j as [|[|[|[|j]]]]; [| | | |lia]; split; reflexivity.
  - unfold pshuflw_mask.
    by rewrite !quad_fields_vperm, vperm_mask_mod_256.
Qed.

Lemma X8_pshuflw_mask_witness :
  getVectorNumElements v8i16 mod 8 = 0
  /\ 0 <= getVectorNumElements v8i16 < 2 ^ 29
  /\ (Z.to_nat (getVectorNumElements v8i16 / 8) <= 1)%nat
  /\ DecodePSHUFLWMask 1 v8i16 0x1B [] = Ok [3; 2; 1; 0; 4; 5; 6; 7].
Proof.
  assert (getVectorNumElements v8i16 mod 8 = 0) as H1 by reflexivity.
  assert (0 <= getVectorNumElements v8i16 < 2 ^ 29) as H2
    by (vm_compute; intuition discriminate).
  assert (Z.to_nat (getVectorNumElements v8i16 / 8) <= 1)%nat as H3
    by (vm_compute; lia).
  split; [exact H1|]. split; [exact H2|]. split; [exact H3|].
  exact (proj1 (X8_pshuflw_mask 1 v8i16 0x1B [] H1 H2 H3)).
Defined.

(** A loop whose variable never meets its bound, around a body that does
    not fail, uses up any fuel. *)
Lemma for_ne_never_meets {St : Type} (fuel : nat) (a e step : Z)
    (body : Z -> St -> result St) (s : St) :
  wrap32 a = a ->
  (forall n : nat, wrap32 (a + Z.of_nat n * step) <> e) ->
  (forall i s, exists s', body i s = Ok s') ->
  for_ne fuel a e step body s = Err OutOfFuel.
Proof.
  intros Ha Hne Hbody. revert a s Ha Hne.
  induction fuel as [|fuel IH]; intros a s Ha Hne;
    pose proof (Hne 0%nat) as H0; simpl in H0;
    rewrite Z.add_0_r, Ha in H0; simpl;
    destruct (Z.eqb_spec a e) as [|_]; try done.
  destruct (Hbody a s) as [s' ->]. simpl. apply IH.
  - apply wrap32_small, wrap32_bounds.
  - intros n. rewrite wrap32_uadd_l.
    replace (a + step + Z.of_nat n * step)
      with (a + Z.of_nat (S n) * step) by lia.
    apply Hne.
Qed.

Lemma multiples_of_8_wrap (n : nat) (N : Z) :
  N mod 8 <> 0 -> wrap32 (0 + Z.of_nat n * 8) <> N.
Proof.
  intros HN Heq. apply HN. rewrite <- Heq. unfold wrap32.
  rewrite Z.mod_mod_divide by (by exists (2 ^ 29)).
  rewrite Z.add_0_l. apply Z.mod_mul. lia.
Qed.

(** X9. On a vector whose element count is not a multiple of 8 (the
    64-bit [v4i16], say) the word permute decoders do not return: their
    group loop steps by 8 and leaves only when it meets the element count
    exactly, so it runs through any amount of fuel. *)
Theorem X9_word_permutes_need_groups_of_8
    (fuel : nat) (VT : MVT) (Imm : Z) (M : mask) :
  getVectorNumElements VT mod 8 <> 0 ->
  DecodePSHUFHWMask fuel VT Imm M = Err OutOfFuel
  /\ DecodePSHUFLWMask fuel VT Imm M = Err OutOfFuel.
Proof.
  intros HN. split.
  - apply for_ne_never_meets; [done|by intros; apply multiples_of_8_wrap|].
    intros l m. cbv zeta. rewrite for_range_fold by lia.
    change (seqZ 0 (4 - 0)) with [0; 1; 2; 3]. cbn [foldM mbind result_bind].
    rewrite for_range_fold by lia.
    change (seqZ 4 (8 - 4)) with [4; 5; 6; 7]. cbn [foldM mbind result_bind].
    by eexists.
  - apply for_ne_never_meets; [done|by intros; apply multiples_of_8_wrap|].
    intros l m. cbv zeta. rewrite for_range_fold by lia.
    change (seqZ 0 (4 - 0)) with [0; 1; 2; 3]. cbn [foldM mbind result_bind].
    rewrite for_range_fold by lia.
    change (seqZ 4 (8 - 4)) with [4; 5; 6; 7]. cbn [foldM mbind result_bind].
    by eexists.
Qed.

Lemma X9_word_permutes_witness :
  getVectorNumElements v4i16 mod 8 <> 0
  /\ DecodePSHUFLWMask 1000 v4i16 0x1B [] = Err OutOfFuel.
Proof.
  assert (getVectorNumElements v4i16 mod 8 <> 0) as H
    by (vm_compute; discriminate).
  split; [exact H|].
  exact (proj2 (X9_word_permutes_need_groups_of_8 1000 v4i16 0x1B [] H)).
Defined.

(** ** The unpack decoders *)

Lemma lookup_pairs (f g : Z -> Z) (n : nat) :
  forall (a : Z) (j : nat), (j < n)%nat ->
  (seqZ a (Z.of_nat n) ≫= fun i => [f i; g i]) !! (2 * j)%nat
  = Some (f (a + Z.of_nat j))
  /\ (seqZ a (Z.of_nat n) ≫= fun i => [f i; g i]) !! (2 * j + 1)%nat
     = Some (g (a + Z.of_nat j)).
Proof.
  induction n as [|n IH]; intros a j Hj; [lia|].
  rewrite seqZ_cons by lia. rewrite bind_cons.
  replace (Z.pred (Z.of_nat (S n))) with (Z.of_nat n) by lia.
  destruct j as [|j].
  - simpl. by rewrite Z.add_0_r.
  - replace (2 * S j)%nat with (S (S (2 * j))) by lia.
    replace (S (S (2 * j)) + 1)%nat with (S (S (2 * j + 1))) by lia.
    assert (forall (p : nat) (r : list Z),
              ([f a; g a] ++ r) !! S (S p) = r !! p) as Hskip by done.
    rewrite !Hskip.
    destruct (IH (Z.succ a) j ltac:(lia)) as [-> ->].
    split; do 2 f_equal; lia.
Qed.

Lemma length_unpckh_mask VT :
  unpack_shape VT ->
  Z.of_nat (length (unpckh_mask VT))
  = unpack_lanes VT * (2 * (unpack_lane_elts VT - unpack_lane_elts VT / 2)).
Proof.
  intros Hshape.
  destruct (unpack_shape_geometry VT Hshape) as (HK & HL & HN).
  unfold unpckh_mask. cbv zeta.
  assert (0 <= unpack_lane_elts VT / 2 <= unpack_lane_elts VT) as HH.
  { split; [apply Z.div_pos; lia|]. apply Z.div_le_upper_bound; lia. }
  apply length_lanes; [lia|lia|]. intros k Hk. apply length_pairs. lia.
Qed.

Lemma length_unpckl_mask VT :
  unpack_shape VT ->
  Z.of_nat (length (unpckl_mask VT))
  = unpack_lanes VT * (2 * (unpack_lane_elts VT / 2)).
Proof.
  intros Hshape.
  destruct (unpack_shape_geometry VT Hshape) as (HK & HL & HN).
  unfold unpckl_mask. cbv zeta.
  assert (0 <= unpack_lane_elts VT / 2) by (apply Z.div_pos; lia).
  apply length_lanes; [lia|lia|]. intros k Hk. apply length_pairs. lia.
Qed.

(** X10. On a vector of whole lanes (one lane for vectors narrower than
    128 bits) the unpack-high decoder appends, lane by lane, one pair per
    element [i] of the upper half of the lane: [i] of source 1 followed by
    [i] of source 2 ([i + NumElts]).  With an even lane width the mask has
    one entry per element. *)
Theorem X10_unpckh_interleaves (fuel : nat) (VT : MVT) (M : mask) :
  unpack_shape VT ->
  (Z.to_nat (unpack_lanes VT) <= fuel)%nat ->
  let L := unpack_lane_elts VT in
  let H := Z.to_nat (L - L / 2) in
  DecodeUNPCKHMask fuel VT M = Ok (M ++ unpckh_mask VT)
  /\ (L mod 2 = 0 ->
      Z.of_nat (length (unpckh_mask VT)) = getVectorNumElements VT)
  /\ (forall k j : nat,
        Z.of_nat k < unpack_lanes VT -> (j < H)%nat ->
        unpckh_mask VT !! (k * (2 * H) + 2 * j)%nat
        = Some (Z.of_nat k * L + L / 2 + Z.of_nat j)
        /\ unpckh_mask VT !! (k * (2 * H) + (2 * j + 1))%nat
           = Some (Z.of_nat k * L + L / 2 + Z.of_nat j
                   + getVectorNumElements VT)).
Proof.
  intros Hshape Hfuel L H.
  destruct (unpack_shape_geometry VT Hshape) as (HK & HL & HN).
  assert (0 <= L / 2 <= L) as HH.
  { split; [apply Z.div_pos; lia|]. apply Z.div_le_upper_bound; lia. }
  split; [by apply DecodeUNPCKHMask_closed|]. split.
  - intros Heven. rewrite length_unpckh_mask by done. fold L.
    pose proof (Z.div_mod L 2 ltac:(lia)). nia.
  - intros k j Hk Hj. unfold unpckh_mask. cbv zeta. fold L.
    rewrite <- (Z2Nat.id (unpack_lanes VT)) by lia.
    assert (forall k' : nat, (k' < Z.to_nat (unpack_lanes VT))%nat ->
      length (seqZ (Z.of_nat k' * L + L / 2) (L - L / 2)
              ≫= fun i => [i; i + getVectorNumElements VT])
      = (2 * H)%nat) as Hlen.
    { intros k' _. rewrite (length_bind_const _ 2) by done.
      rewrite length_seqZ. lia. }
    rewrite !(lookup_lanes _ (2 * H)) by (done || lia).
    replace (L - L / 2) with (Z.of_nat H) by lia.
    destruct (lookup_pairs (fun i => i)
                (fun i => i + getVectorNumElements VT) H
                (Z.of_nat k * L + L / 2) j Hj) as [-> ->].
    done.
Qed.

Lemma X10_unpckh_interleaves_witness :
  unpack_shape v8i32
  /\ (Z.to_nat (unpack_lanes v8i32) <= 2)%nat
  /\ DecodeUNPCKHMask 2 v8i32 [] = Ok [2; 10; 3; 11; 6; 14; 7; 15].
Proof.
  assert (unpack_shape v8i32) as H1 by (vm_compute; intuition discriminate).
  assert (Z.to_nat (unpack_lanes v8i32) <= 2)%nat as H2 by (vm_compute; lia).
  split; [exact H1|]. split; [exact H2|].
  exact (proj1 (X10_unpckh_interleaves 2 v8i32 [] H1 H2)).
Defined.

(** X11. On a vector of whole lanes (one lane for vectors narrower than
    128 bits) the unpack-low decoder appends, lane by lane, one pair per
    element [i] of the lower half of the lane: [i] of source 1 followed by
    [i] of source 2 ([i + NumElts]).  With an even lane width the mask has
    one entry per element; with an odd one it is shorter. *)
Theorem X11_unpckl_interleaves (fuel : nat) (VT : MVT) (M : mask) :
  unpack_shape VT ->
  (Z.to_nat (unpack_lanes VT) <= fuel)%nat ->
  let L := unpack_lane_elts VT in
  let H := Z.to_nat (L / 2) in
  DecodeUNPCKLMask fuel VT M = Ok (M ++ unpckl_mask VT)
  /\ Z.of_nat (length (unpckl_mask VT))
     = getVectorNumElements VT - unpack_lanes VT * (L mod 2)
  /\ (forall k j : nat,
        Z.of_nat k < unpack_lanes VT -> (j < H)%nat ->
        unpckl_mask VT !! (k * (2 * H) + 2 * j)%nat
        = Some (Z.of_nat k * L + Z.of_nat j)
        /\ unpckl_mask VT !! (k * (2 * H) + (2 * j + 1))%nat
           = Some (Z.of_nat k * L + Z.of_nat j + getVectorNumElements VT)).
Proof.
  intros Hshape Hfuel L H.
  destruct (unpack_shape_geometry VT Hshape) as (HK & HL & HN).
  assert (0 <= L / 2) as HH by (apply Z.div_pos; lia).
  split; [by apply DecodeUNPCKLMask_closed|]. split.
  - rewrite length_unpckl_mask by done. fold L.
    pose proof (Z.div_mod L 2 ltac:(lia)). nia.
  - intros k j Hk Hj. unfold unpckl_mask. cbv zeta. fold L.
    rewrite <- (Z2Nat.id (unpack_lanes VT)) by lia.
    assert (forall k' : nat, (k' < Z.to_nat (unpack_lanes VT))%nat ->
      length (seqZ (Z.of_nat k' * L) (L / 2)
              ≫= fun i => [i; i + getVectorNumElements VT])
      = (2 * H)%nat) as Hlen.
    { intros k' _. rewrite (length_bind_const _ 2) by done.
      rewrite length_seqZ. lia. }
    rewrite !(lookup_lanes _ (2 * H)) by (done || lia).
    replace (L / 2) with (Z.of_nat H) by lia.
    destruct (lookup_pairs (fun i => i)
                (fun i => i + getVectorNumElements VT) H
                (Z.of_nat k * L) j Hj) as [-> ->].
    done.
Qed.

Lemma X11_unpckl_interleaves_witness :
  unpack_shape v8i8
  /\ (Z.to_nat (unpack_lanes v8i8) <= 1)%nat
  /\ DecodeUNPCKLMask 1 v8i8 [] = Ok [0; 8; 1; 9; 2; 10; 3; 11].
Proof.
  assert (unpack_shape v8i8) as H1 by (vm_compute; intuition discriminate).
  assert (Z.to_nat (unpack_lanes v8i8) <= 1)%nat as H2 by (vm_compute; lia).
  split; [exact H1|]. split; [exact H2|].
  exact (proj1 (X11_unpckl_interleaves 1 v8i8 [] H1 H2)).
Defined.

(** ** The sources of the permute-by-immediate decoders *)

Lemma lookup_row (f : Z -> Z) (n : Z) (i : nat) :
  Z.of_nat i < n ->
  (seqZ 0 n ≫= fun j => [f j]) !! i = Some (f (Z.of_nat i)).
Proof.
  intros Hi. by rewrite bind_unit_fmap, list_lookup_fmap, lookup_seqZ_lt.
Qed.

Lemma digit_mod_256 (Imm i : Z) :
  0 <= i < 4 -> (Imm mod 256 / 4 ^ i) mod 4 = (Imm / 4 ^ i) mod 4.
Proof.
  intros Hi.
  replace (4 ^ i) with (2 ^ (2 * i)) by (by rewrite Z.pow_mul_r by lia).
  change 4 with (2 ^ 2).
  rewrite <- !Z.shiftr_div_pow2, <- !Z.land_ones by lia.
  apply field_mod_256; lia.
Qed.

Lemma length_pshuf_mask VT Imm :
  whole_lanes VT ->
  Z.of_nat (length (pshuf_mask VT Imm)) = getVectorNumElements VT.
Proof.
  intros Hwl. destruct (whole_lanes_geometry VT Hwl) as [HL HN].
  destruct Hwl as (Hlanes & _). unfold pshuf_mask. cbv zeta.
  rewrite (length_lanes _ (NumLaneElts VT)); [lia|lia|lia|].
  intros k Hk. apply length_row. lia.
Qed.

(** X12. On a vector of whole 128-bit lanes the generic
    permute-by-immediate decoder appends one entry per element, and the
    entry at position [i] of lane [k] reads an element of lane [k] of
    source 1: it never crosses a lane and never reads source 2.  With four
    elements to the lane only the low 8 bits of the immediate are read. *)
Theorem X12_pshuf_stays_in_lane (fuel : nat) (VT : MVT) (Imm : Z) (M : mask) :
  whole_lanes VT ->
  (Z.to_nat (NumLanes VT) <= fuel)%nat ->
  let L := NumLaneElts VT in
  DecodePSHUFMask fuel VT Imm M = Ok (M ++ pshuf_mask VT Imm)
  /\ Z.of_nat (length (pshuf_mask VT Imm)) = getVectorNumElements VT
  /\ (forall k i : nat,
        Z.of_nat k < NumLanes VT -> Z.of_nat i < L ->
        exists d, 0 <= d < L
          /\ pshuf_mask VT Imm !! (k * Z.to_nat L + i)%nat
             = Some (d + Z.of_nat k * L))
  /\ (L = 4 -> pshuf_mask VT (Imm mod 256) = pshuf_mask VT Imm).
Proof.
  intros Hwl Hfuel L.
  destruct (whole_lanes_geometry VT Hwl) as [HL HN].
  pose proof Hwl as (Hlanes & _).
  split; [by apply DecodePSHUFMask_closed|].
  split; [by apply length_pshuf_mask|]. split.
  - intros k i Hk Hi. unfold pshuf_mask. cbv zeta. fold L.
    rewrite <- (Z2Nat.id (NumLanes VT)) by lia.
    rewrite (lookup_lanes _ (Z.to_nat L)); [|intros k' _|lia|lia].
    2: { apply Nat2Z.inj. rewrite length_row; lia. }
    rewrite lookup_row by lia. eexists. split; [|reflexivity].
    apply Z.mod_pos_bound. lia.
  - intros H4. unfold pshuf_mask. cbv zeta. fold L. rewrite H4.
    apply Forall_bind_ext, Forall_seqZ. intros k Hk.
    apply Forall_bind_ext, Forall_seqZ. intros i Hi.
    cbn [Z.eqb Pos.eqb]. by rewrite digit_mod_256 by lia.
Qed.

Lemma X12_pshuf_stays_in_lane_witness :
  whole_lanes v8i32
  /\ (Z.to_nat (NumLanes v8i32) <= 2)%nat
  /\ DecodePSHUFMask 2 v8i32 0x39 [] = Ok [1; 2; 3; 0; 5; 6; 7; 4].
Proof.
  assert (whole_lanes v8i32) as H1 by (vm_compute; intuition discriminate).
  assert (Z.to_nat (NumLanes v8i32) <= 2)%nat as H2 by (vm_compute; lia).
  split; [exact H1|]. split; [exact H2|].
  exact (proj1 (X12_pshuf_stays_in_lane 2 v8i32 0x39 [] H1 H2)).
Defined.

Lemma length_shufp_lane (L N Imm k : Z) :
  0 <= L ->
  Z.of_nat (length (seqZ 0 2 ≫= fun h =>
                    seqZ 0 (L / 2) ≫= fun i =>
                    [(Imm / L ^ (if L =? 4 then h * (L / 2) + i
                                 else k * (2 * (L / 2)) + h * (L / 2) + i))
                       mod L + h * N + k * L]))
  = 2 * (L / 2).
Proof.
  intros HL. assert (0 <= L / 2) by (apply Z.div_pos; lia).
  apply (length_lanes 2 (L / 2)); [lia|lia|].
  intros h Hh. apply length_row. lia.
Qed.

(** X13. On a vector of whole 128-bit lanes of even width the
    shuffle-and-pack decoder appends one entry per element: in lane [k]
    the first half of the positions read elements of lane [k] of source 1
    and the second half read elements of lane [k] of source 2. *)
Theorem X13_shufp_sources (fuel : nat) (VT : MVT) (Imm : Z) (M : mask) :
  whole_lanes VT -> NumLaneElts VT mod 2 = 0 ->
  (Z.to_nat (NumLanes VT) <= fuel)%nat -> (2 <= fuel)%nat ->
  let L := NumLaneElts VT in
  let N := getVectorNumElements VT in
  DecodeSHUFPMask fuel VT Imm M = Ok (M ++ shufp_mask VT Imm)
  /\ Z.of_nat (length (shufp_mask VT Imm)) = N
  /\ (forall k i : nat,
        Z.of_nat k < NumLanes VT -> Z.of_nat i < L / 2 ->
        (exists d, 0 <= d < L
           /\ shufp_mask VT Imm
                !! (k * Z.to_nat L + (0 * Z.to_nat (L / 2) + i))%nat
              = Some (d + Z.of_nat k * L))
        /\ (exists d, 0 <= d < L
              /\ shufp_mask VT Imm
                   !! (k * Z.to_nat L + (1 * Z.to_nat (L / 2) + i))%nat
                 = Some (d + N + Z.of_nat k * L))).
Proof.
  intros Hwl Heven Hfuel Hfuel2 L N.
  destruct (whole_lanes_geometry VT Hwl) as [HL HN].
  pose proof Hwl as (Hlanes & _).
  change (L mod 2 = 0) in Heven. change (1 <= L) in HL.
  change (N = NumLanes VT * L) in HN.
  assert (0 <= L / 2) as HH by (apply Z.div_pos; lia).
  assert (L = 2 * (L / 2)) as HL2.
  { pose proof (Z.div_mod L 2 ltac:(lia)). lia. }
  split; [by apply DecodeSHUFPMask_closed|]. split.
  - unfold shufp_mask. cbv zeta. fold L N.
    rewrite (length_lanes _ (2 * (L / 2))); [nia|lia|lia|].
    intros k Hk. apply length_shufp_lane. lia.
  - intros k i Hk Hi. unfold shufp_mask. cbv zeta. fold L N.
    rewrite <- (Z2Nat.id (NumLanes VT)) by lia.
    rewrite !(lookup_lanes _ (Z.to_nat L))
      by first [lia | intros k' _; apply Nat2Z.inj;
                      rewrite length_shufp_lane; lia].
    split.
    + rewrite (lookup_lanes 2 (Z.to_nat (L / 2)) _ 0 i)
        by first [lia | intros h' _; apply Nat2Z.inj;
                        rewrite length_row; lia].
      rewrite lookup_row by lia.
      match goal with
      | |- context [Some (?x mod L + _ + _)] => exists (x mod L)
      end.
      split; [apply Z.mod_pos_bound; lia|f_equal; lia].
    + rewrite (lookup_lanes 2 (Z.to_nat (L / 2)) _ 1 i)
        by first [lia | intros h' _; apply Nat2Z.inj;
                        rewrite length_row; lia].
      rewrite lookup_row by lia.
      match goal with
      | |- context [Some (?x mod L + _ + _)] => exists (x mod L)
      end.
      split; [apply Z.mod_pos_bound; lia|f_equal; lia].
Qed.

Lemma X13_shufp_sources_witness :
  whole_lanes v8i32 /\ NumLaneElts v8i32 mod 2 = 0
  /\ (Z.to_nat (NumLanes v8i32) <= 2)%nat /\ (2 <= 2)%nat
  /\ DecodeSHUFPMask 2 v8i32 0x39 [] = Ok [1; 2; 11; 8; 5; 6; 15; 12].
Proof.
  assert (whole_lanes v8i32) as H1 by (vm_compute; intuition discriminate).
  assert (NumLaneElts v8i32 mod 2 = 0) as H2 by reflexivity.
  assert (Z.to_nat (NumLanes v8i32) <= 2)%nat as H3 by (vm_compute; lia).
  assert (2 <= 2)%nat as H4 by lia.
  split; [exact H1|]. split; [exact H2|]. split; [exact H3|].
  split; [exact H4|].
  exact (proj1 (X13_shufp_sources 2 v8i32 0x39 [] H1 H2 H3 H4)).
Defined.

(** ** The two byte-table decoders *)

Lemma to_int_bounds x : - 2 ^ 31 <= to_int x < 2 ^ 31.
Proof.
  unfold to_int. cbv zeta. pose proof (wrap32_bounds x).
  destruct (Z.ltb_spec (wrap32 x) (2 ^ 31)); lia.
Qed.

(** X14. On a constant it supports (a vector of 16 or 32 elements of type
    i8) the typed byte-table decoder does to any container exactly what
    the raw byte-table decoder does on the elements of the constant,
    failed assertions included. *)
Theorem X14_pshufb_variants_agree (C : ConstantDataSequential) (M : mask) :
  supported_constant C ->
  DecodePSHUFBMask_Constant C M = DecodePSHUFBMask_Raw (elements C) M.
Proof.
  intros (Hvec & Hbits & Hsize & Hlen).
  unfold DecodePSHUFBMask_Constant, DecodePSHUFBMask_Raw. cbv zeta.
  unfold getNumElements.
  set (NE := to_int (getTypeNumElements C)) in *.
  rewrite Hvec, Hbits. cbn [assert mbind result_bind Z.eqb Pos.eqb].
  assert ((NE =? 16) || (NE =? 32) = true) as ->.
  { destruct Hsize as [-> | ->]; reflexivity. }
  cbn [mbind result_bind].
  rewrite (wrap32_small NE) by lia. rewrite Hlen, Z.eqb_refl.
  cbn [mbind result_bind].
  rewrite !for_lt_fold. apply foldM_ext. intros i m _.
  unfold getElementAsInteger. destruct (negb _); [done|]. cbv zeta.
  match goal with |- context [to_int ?x] =>
    pose proof (to_int_bounds x); set (Index := to_int x) in * end.
  destruct (Z.leb_spec 0 Index); [|done].
  by rewrite (wrap32_small Index) by lia.
Qed.

Lemma X14_pshufb_variants_agree_witness :
  supported_constant (mkCDS true 8 32 table_2_20)
  /\ DecodePSHUFBMask_Constant (mkCDS true 8 32 table_2_20) [7]
     = DecodePSHUFBMask_Raw table_2_20 [7].
Proof.
  assert (supported_constant (mkCDS true 8 32 table_2_20)) as H
    by (vm_compute; intuition discriminate).
  split; [exact H|]. exact (X14_pshufb_variants_agree _ [7] H).
Defined.

Lemma foldM_fails_by_assertion (body : Z -> list Z -> result (list Z))
    (vals : list Z) (m : list Z) :
  (forall i m, (exists m', body i m = Ok m')
               \/ body i m = Err AssertionFailure) ->
  (exists m', foldM body vals m = Ok m')
  \/ foldM body vals m = Err AssertionFailure.
Proof.
  intros Hbody. revert m; induction vals as [|i vals IH]; intros m; simpl.
  - left. by eexists.
  - destruct (Hbody i m) as [[m' ->]| ->]; simpl; [apply IH|by right].
Qed.



(** ** The window of the byte-rotate-concatenate decoder *)

Lemma palignr_lane_window (N L Off k : Z) :
  0 <= Off <= L ->
  (seqZ 0 L ≫= fun i =>
     [(if L <=? i + Off then i + Off + (N - L) else i + Off) + k * L])
  = seqZ (k * L + Off) (L - Off) ++ seqZ (N + k * L) Off.
Proof.
  intros HOff.
  replace L with ((L - Off) + Off) at 1 by lia.
  rewrite seqZ_app, bind_app by lia. rewrite Z.add_0_l. f_equal.
  - replace (seqZ (k * L + Off) (L - Off))
      with (Z.add (k * L + Off) <$> seqZ 0 (L - Off))
      by (rewrite fmap_add_seqZ; f_equal; lia).
    rewrite <- bind_unit_fmap.
    apply Forall_bind_ext, Forall_seqZ. intros i Hi.
    destruct (Z.leb_spec L (i + Off)); [lia|]. f_equal. lia.
  - replace (seqZ (N + k * L) Off)
      with (Z.add (N + k * L - (L - Off)) <$> seqZ (L - Off) Off)
      by (rewrite fmap_add_seqZ; f_equal; lia).
    rewrite <- bind_unit_fmap.
    apply Forall_bind_ext, Forall_seqZ. intros i Hi.
    destruct (Z.leb_spec L (i + Off)); [|lia]. f_equal. lia.
Qed.

(** X16. On a vector of whole 128-bit lanes, with an offset
    [Imm * elementByteSize] that does not exceed the lane width, the
    byte-rotate-concatenate decoder takes in every lane the window at the
    offset of the lane of source 1 followed by the lane of source 2: the
    rest of the lane of source 1 and then the first elements of the lane of
    source 2.  The offset 0 gives the identity mask, the offset of a whole
    lane gives source 2. *)
Theorem X16_palignr_window (fuel : nat) (VT : MVT) (Imm : Z) (M : mask) :
  whole_lanes VT ->
  0 <= Imm * (getVectorElementSizeInBits VT / 8) <= NumLaneElts VT ->
  (Z.to_nat (NumLanes VT) <= fuel)%nat ->
  let Off := Imm * (getVectorElementSizeInBits VT / 8) in
  let N := getVectorNumElements VT in
  DecodePALIGNRMask fuel VT Imm M = Ok (M ++ palignr_window VT Off)
  /\ (Off = 0 -> palignr_window VT Off = seqZ 0 N)
  /\ (Off = NumLaneElts VT -> palignr_window VT Off = seqZ N N).
Proof.
  intros Hwl HOff Hfuel Off N.
  destruct (whole_lanes_geometry VT Hwl) as [HL HN].
  pose proof Hwl as (Hlanes & _ & Hpos & Hbound).
  assert (NumLaneElts VT <= getVectorNumElements VT) by nia.
  split; [|split].
  - rewrite DecodePALIGNRMask_closed by (done || lia).
    do 2 f_equal. unfold palignr_mask, palignr_window. cbv zeta.
    apply Forall_bind_ext, Forall_seqZ. intros k Hk.
    by apply palignr_lane_window.
  - intros H0. unfold palignr_window. cbv zeta. rewrite H0.
    transitivity (seqZ 0 (Z.of_nat (Z.to_nat (NumLanes VT)))
                  ≫= fun k => seqZ (0 + k * NumLaneElts VT) (NumLaneElts VT)).
    + rewrite Z2Nat.id by lia.
      apply Forall_bind_ext, Forall_seqZ. intros k Hk.
      rewrite (seqZ_nil _ 0), app_nil_r by lia. f_equal; lia.
    + rewrite seqZ_lanes by lia. f_equal. lia.
  - intros HL'. unfold palignr_window. cbv zeta. rewrite HL'.
    transitivity (seqZ 0 (Z.of_nat (Z.to_nat (NumLanes VT)))
                  ≫= fun k => seqZ (N + k * NumLaneElts VT) (NumLaneElts VT)).
    + rewrite Z2Nat.id by lia.
      apply Forall_bind_ext, Forall_seqZ. intros k Hk.
      by rewrite (seqZ_nil _ (_ - _)) by lia.
    + rewrite seqZ_lanes by lia. f_equal. lia.
Qed.

Lemma X16_palignr_window_witness :
  whole_lanes v32i8
  /\ 0 <= 4 * (getVectorElementSizeInBits v32i8 / 8) <= NumLaneElts v32i8
  /\ (Z.to_nat (NumLanes v32i8) <= 2)%nat
  /\ DecodePALIGNRMask 2 v32i8 4 []
     = Ok (palignr_window v32i8 (4 * (getVectorElementSizeInBits v32i8 / 8))).
Proof.
  assert (whole_lanes v32i8) as H1 by (vm_compute; intuition discriminate).
  assert (0 <= 4 * (getVectorElementSizeInBits v32i8 / 8)
          <= NumLaneElts v32i8) as H2
    by (vm_compute; intuition discriminate).
  assert (Z.to_nat (NumLanes v32i8) <= 2)%nat as H3 by (vm_compute; lia).
  split; [exact H1|]. split; [exact H2|]. split; [exact H3|].
  exact (proj1 (X16_palignr_window 2 v32i8 4 [] H1 H2 H3)).
Defined.

(** ** Decoders that agree *)

Lemma digit_is_field (Imm i : Z) :
  0 <= i -> (Imm / 4 ^ i) mod 4 = Z.land (Z.shiftr Imm (2 * i)) 3.
Proof.
  intros Hi.
  replace (4 ^ i) with (2 ^ (2 * i)) by (by rewrite Z.pow_mul_r by lia).
  change 4 with (2 ^ 2). change 3 with (Z.ones 2).
  by rewrite <- Z.shiftr_div_pow2, <- Z.land_ones by lia.
Qed.

(** X17. On a vector of 4 elements in one 128-bit lane the generic
    permute-by-immediate decoder does exactly what the quad-word permute
    decoder does, for every immediate and every container. *)
Theorem X17_pshuf_on_four_elements_is_vperm
    (fuel : nat) (VT : MVT) (Imm : Z) (M : mask) :
  getVectorNumElements VT = 4 -> NumLanes VT = 1 -> (1 <= fuel)%nat ->
  DecodePSHUFMask fuel VT Imm M = DecodeVPERMMask Imm M.
Proof.
  intros HN HK Hfuel.
  assert (whole_lanes VT) as Hwl.
  { unfold whole_lanes. rewrite HK, HN. split; [lia|]. split; [done|lia]. }
  rewrite DecodePSHUFMask_closed, DecodeVPERMMask_closed by (done || lia).
  do 2 f_equal. unfold pshuf_mask, vperm_mask, NumLaneElts.
  rewrite HK, HN. cbv zeta.
  change (seqZ 0 1) with [0]. change (seqZ 0 (4 / 1)) with [0; 1; 2; 3].
  change (4 / 1 =? 4) with true. change (4 / 1) with 4.
  cbn [mbind list_bind mjoin app fmap list_fmap].
  rewrite !digit_is_field by lia.
  change (2 * 0) with 0. change (2 * 1) with 2. change (2 * 2) with 4.
  change (2 * 3) with 6. change (0 * 4) with 0.
  by rewrite !Z.add_0_r, Z.shiftr_0_r.
Qed.

Lemma X17_pshuf_is_vperm_witness :
  getVectorNumElements v4i32 = 4 /\ NumLanes v4i32 = 1 /\ (1 <= 1)%nat
  /\ DecodePSHUFMask 1 v4i32 0x4E [] = DecodeVPERMMask 0x4E [].
Proof.
  assert (getVectorNumElements v4i32 = 4) as H1 by reflexivity.
  assert (NumLanes v4i32 = 1) as H2 by reflexivity.
  assert (1 <= 1)%nat as H3 by lia.
  split; [exact H1|]. split; [exact H2|]. split; [exact H3|].
  exact (X17_pshuf_on_four_elements_is_vperm 1 v4i32 0x4E [] H1 H2 H3).
Defined.

(** X18. The insert-lane decoder reads only the low 8 bits of its
    immediate: on any container it does the same with [Imm] and with
    [Imm mod 256]. *)
Theorem X18_insertps_reads_low_8_bits :
  forall Imm M,
    DecodeINSERTPSMask (Imm mod 256) M = DecodeINSERTPSMask Imm M.
Proof.
  intros Imm M. rewrite !DecodeINSERTPSMask_overwrite. f_equal.
  unfold insertps_overwrite. cbv zeta.
  rewrite (land_mod_256 Imm 15) by lia.
  change 3 with (Z.ones 2). by rewrite !field_mod_256 by lia.
Qed.

(** ** The halves of the cross-lane 128-bit permute *)

Lemma half_select_land_0xBB Imm l :
  l = 0 \/ l = 1 -> half_select (Z.land Imm 0xBB) l = half_select Imm l.
Proof.
  intros Hl. unfold half_select.
  rewrite Z.shiftr_land, <- Z.land_assoc.
  by destruct Hl as [-> | ->].
Qed.

(** X19. When bits 3 and 7 of the immediate are clear the cross-lane
    128-bit permute decoder copies, into each destination half [l], the
    [HalfSize] consecutive source entries that start at
    [half_select Imm l * HalfSize]; when one of them is set it leaves the
    container as it is.  Either way it reads only bits 0, 1, 3, 4, 5 and 7
    of the immediate. *)
Theorem X19_vperm2x128_halves (VT : MVT) (Imm : Z) (M : mask) :
  0 <= getVectorNumElements VT < 2 ^ 30 ->
  let H := getVectorNumElements VT / 2 in
  (Z.land Imm 0x88 = 0 ->
     DecodeVPERM2X128Mask VT Imm M = Ok (M ++ vperm2x128_mask VT Imm)
     /\ forall l j : nat, (l < 2)%nat -> Z.of_nat j < H ->
          vperm2x128_mask VT Imm !! (l * Z.to_nat H + j)%nat
          = Some (half_select Imm (Z.of_nat l) * H + Z.of_nat j))
  /\ (Z.land Imm 0x88 <> 0 -> DecodeVPERM2X128Mask VT Imm M = Ok M)
  /\ DecodeVPERM2X128Mask VT (Z.land Imm 0xBB) M
     = DecodeVPERM2X128Mask VT Imm M.
Proof.
  intros HN H.
  assert (0 <= H) as HH by (apply Z.div_pos; lia).
  assert (Z.land (Z.land Imm 0xBB) 0x88 = Z.land Imm 0x88) as Hres
    by (by rewrite <- Z.land_assoc).
  split; [|split].
  - intros Hz. split; [by apply DecodeVPERM2X128Mask_shuffle|].
    intros l j Hl Hj. unfold vperm2x128_mask. cbv zeta. fold H.
    destruct l as [|[|l]]; [| |lia].
    + rewrite lookup_app_l by (rewrite length_seqZ; lia).
      by rewrite lookup_seqZ_lt by lia.
    + rewrite lookup_app_r by (rewrite length_seqZ; lia).
      rewrite length_seqZ.
      replace (1 * Z.to_nat H + j - Z.to_nat H)%nat with j by lia.
      by rewrite lookup_seqZ_lt by lia.
  - apply DecodeVPERM2X128Mask_not_shuffle.
  - destruct (Z.eq_dec (Z.land Imm 0x88) 0) as [Hz|Hnz].
    + rewrite !DecodeVPERM2X128Mask_shuffle by (done || congruence).
      unfold vperm2x128_mask. by rewrite !half_select_land_0xBB by auto.
    + by rewrite !DecodeVPERM2X128Mask_not_shuffle by congruence.
Qed.

Lemma X19_vperm2x128_halves_witness :
  0 <= getVectorNumElements v8i32 < 2 ^ 30
  /\ Z.land 0x31 0x88 = 0
  /\ DecodeVPERM2X128Mask v8i32 0x31 [] = Ok [4; 5; 6; 7; 12; 13; 14; 15].
Proof.
  assert (0 <= getVectorNumElements v8i32 < 2 ^ 30) as H1
    by (vm_compute; intuition discriminate).
  assert (Z.land 0x31 0x88 = 0) as H2 by reflexivity.
  split; [exact H1|]. split; [exact H2|].
  exact (proj1 (proj1 (X19_vperm2x128_halves v8i32 0x31 [] H1) H2)).
Defined.
